(** * gb: blob retrieval (cat) and blob paranoia

    A shallow embedding of [download/cat.go] (packages [download],
    [paranoia] and the stream helpers of [utils]) together with the
    properties of the retrieval and verification paths.

    Conventions of the embedding:
    - a Go [int64] is a [Z] with the wrap-around of the machine written
      out ([wrap64]);
    - a Go [byte] is a [Z] (an 8-bit value), a [[]byte] a [list Z];
    - a Go [string] is a [string] (a sequence of 8-bit characters);
    - [panic] is the [Panic] result of the monad [M], which also records
      the observable events of a run (queries, downloads, log lines);
    - a stream ([io.Reader]) that is only read to its end is the finite list
      of the bytes it delivers before [io.EOF];
    - the database is a snapshot of its tables: a query fails only by
      finding no row or by scanning a NULL into a Go [string]. *)

From Stdlib Require Import ZArith Ascii DecimalString DecimalZ.
From Equations Require Import Equations.
From stdpp Require Import base tactics option list sorting strings gmap.

Local Open Scope Z_scope.

(** ** Machine integers *)

Definition int64_min : Z := - 2 ^ 63.
Definition int64_max : Z := 2 ^ 63 - 1.

Definition in_int64 (z : Z) : Prop := int64_min <= z <= int64_max.

(** Two's complement reduction of a mathematical integer to [int64]. *)
Definition wrap64 (z : Z) : Z := (z + 2 ^ 63) mod 2 ^ 64 - 2 ^ 63.

Definition add64 (a b : Z) : Z := wrap64 (a + b).
Definition sub64 (a b : Z) : Z := wrap64 (a - b).

(** ** Bytes *)

Abbreviation byte := Z (only parsing).
Abbreviation bytes := (list Z) (only parsing).

(** ** strconv.FormatInt(i, 10)

    The decimal rendering of the Go standard library: a minus sign for
    negative numbers, no leading zeros, ["0"] for zero. *)
Definition FormatInt (i : Z) : string := NilZero.string_of_int (Z.to_int i).

(** ** utils.FormatHTTPRange *)
Definition FormatHTTPRange (offset length : Z) : string :=
  "bytes=" +:+ FormatInt offset +:+ "-" +:+ FormatInt (sub64 (add64 offset length) 1).


(** ** Panics and observable events

    The Go code signals every failure with [panic].  A run of a function is
    the list of events it performed, in order, and either its result or the
    value it panicked with. *)

Inductive panic_value :=
  | ErrNoRows                (* sql.ErrNoRows, from QueryRow(...).Scan *)
  | ErrScan                  (* a column could not be converted by Scan *)
  | ErrHex                   (* the error of hex.DecodeString *)
  | ErrCopy                  (* the error of io.CopyBuffer in utils.Copy *)
  | ErrBackend               (* a panic raised inside a storage backend *)
  | PanicMsg (msg : string). (* panic("...") *)

Inductive query :=
  | QCat (hash : bytes)            (* the join of CatReadCloser *)
  | QBlobSize (blobID : bytes)     (* SELECT size FROM blobs *)
  | QBlobPath (blobID storageID : bytes)
  | QBlob (blobID : bytes)         (* SELECT padding_key, size, final_hash *)
  | QEntries (blobID : bytes).     (* SELECT ... FROM blob_entries ORDER BY *)

Inductive event :=
  | EvQuery (q : query)
  | EvDownload (storageID : bytes) (path : string) (offset length : Z)
  | EvLine (line : string)   (* "Processing input line:" *)
  | EvEntry (hash : bytes)   (* "Expected hash for this entry is ..." *)
  | EvHashEqual              (* "Hash is equal!" *)
  | EvVerified.              (* "Fully verified all hashes and paddings" *)

Inductive result (A : Type) :=
  | Ok (a : A)
  | Panic (e : panic_value).
Arguments Ok {A} a.
Arguments Panic {A} e.

Definition M (A : Type) : Type := list event * result A.

Global Instance M_ret : MRet M := λ A a, ([], Ok a).
Global Instance M_bind : MBind M := λ A B f m,
  match m with
  | (l, Ok a) => let '(l', r) := f a in (l ++ l', r)
  | (l, Panic e) => (l, Panic e)
  end.

Definition panic {A} (e : panic_value) : M A := ([], Panic e).
Definition emit (ev : event) : M unit := ([ev], Ok tt).
Definition lift {A} (r : result A) : M A := ([], r).

(** A loop over a slice or a row cursor whose body may panic. *)
Fixpoint foldM {A S} (body : A → S → M S) (l : list A) (s : S) : M S :=
  match l with
  | [] => mret s
  | a :: l' => s' ← body a s; foldM body l' s'
  end.

Definition events {A} (m : M A) : list event := m.1.
Definition outcome {A} (m : M A) : result A := m.2.

(** ** The metadata store

    One record per table, with the columns the queries of [cat.go] read.
    [compression_alg] is the only column read that may be NULL. *)

Record hashes_row := {
  h_hash : bytes;
  h_size : Z }.

Record blobs_row := {
  b_blob_id : bytes;
  b_encryption_key : bytes;
  b_padding_key : bytes;
  b_size : Z;
  b_final_hash : bytes }.

Record blob_entries_row := {
  e_hash : bytes;
  e_blob_id : bytes;
  e_encryption_key : bytes;
  e_final_size : Z;
  e_offset : Z;
  e_compression_alg : option string }.

Record blob_storage_row := {
  p_blob_id : bytes;
  p_storage_id : bytes;
  p_path : string }.

Record storage_row := {
  s_storage_id : bytes;
  s_readable_label : string;
  s_type : string;
  s_identifier : string;
  s_root_path : string }.

Record database := {
  hashes : list hashes_row;
  blobs : list blobs_row;
  blob_entries : list blob_entries_row;
  blob_storage : list blob_storage_row;
  storage : list storage_row }.

(** SQLite integers are 64-bit: the integer columns of a stored row fit
    [int64]. *)
Definition entry_int64 (e : blob_entries_row) : Prop :=
  in_int64 (e_offset e) ∧ in_int64 (e_final_size e).

(** Scan of a nullable TEXT column into a Go [string]. *)
Definition scan_string (v : option string) : M string :=
  match v with
  | Some s => mret s
  | None => panic ErrScan
  end.

(** [QueryRow(...).Scan(...)]: the first row of the result, or
    [sql.ErrNoRows]. *)
Definition query_row {A} (rows : list A) : M A :=
  match rows with
  | r :: _ => mret r
  | [] => panic ErrNoRows
  end.

(** ** Storage backends

    [storage_base.Storage] is an interface; the backends themselves are
    outside this development. *)

Record Storage := {
  GetID : bytes;
  DownloadSection : string → Z → Z → result bytes }.

Record StorageDescriptor := {
  StorageID : bytes;
  Kind : string;
  Identifier : string;
  RootPath : string }.

Class Registry := {
  StorageDataToStorage : StorageDescriptor → result Storage;
  StorageSelect : string → option Storage }.

Definition download (st : Storage) (path : string) (offset length : Z) : M bytes :=
  _ ← emit (EvDownload (GetID st) path offset length);
  lift (DownloadSection st path offset length).

(** ** Cipher, compression, digest

    Packages [crypto] and [compression] and SHA-256 are used through their
    interfaces. *)

Class Cipher := {
  keystream : bytes → Z → byte }.

(** What a decompressor makes of the bytes available to it: the bytes it
    produces and how many input bytes it read, or an error. *)
Inductive decoded :=
  | Decoded (out : bytes) (consumed : nat)
  | DecodeError.

Class Compression := {
  Compress : string → bytes → bytes;
  Decompress : string → bytes → decoded }.

Class Digest := {
  sha256 : bytes → bytes }.

(** Modelled from the spec: [crypto.DecryptBlobEntry] is not among the
    sources.  The cipher is a seekable stream cipher keyed by [key] whose
    keystream is addressed by the absolute byte offset inside the blob; the
    output has the length of the input. *)
Fixpoint DecryptBlobEntry `{Cipher} (src : bytes) (offset : Z) (key : bytes) : bytes :=
  match src with
  | [] => []
  | b :: src' => Z.lxor b (keystream key offset) :: DecryptBlobEntry src' (offset + 1) key
  end.

(** Modelled from the spec: the packer is not among the sources.  An entry
    is stored post-compression, then encrypted with the keystream indexed by
    the absolute blob offset. *)
Definition EncryptBlobEntry `{Cipher} (src : bytes) (offset : Z) (key : bytes) : bytes :=
  DecryptBlobEntry src offset key.


(** ** utils.SliceToArr *)
Definition SliceToArr (in_ : bytes) : M bytes :=
  if decide (length in_ = 32%nat) then mret in_
  else panic (PanicMsg "database gave invalid row??").

(** ** utils.HasherSizer

    [hasher] holds the bytes written so far; the digest is taken over
    them.  [Write] adds [int64(len(p))] to the counter. *)
Record HasherSizer := {
  size : Z;
  hasher : bytes }.

Definition NewSHA256HasherSizer : HasherSizer := {| size := 0; hasher := [] |}.

Definition Write (hs : HasherSizer) (p : bytes) : HasherSizer :=
  {| size := add64 (size hs) (Z.of_nat (length p)); hasher := hasher hs ++ p |}.

Definition Size (hs : HasherSizer) : Z := size hs.
Definition Hash `{Digest} (hs : HasherSizer) : bytes := sha256 (hasher hs).
Definition HashAndSize `{Digest} (hs : HasherSizer) : bytes * Z := (Hash hs, Size hs).


(** ** download.CatReadCloser *)

(** A row of the join
    [blob_entries ⋈ blobs ⋈ blob_storage ⋈ storage]. *)
Definition joined : Type :=
  blob_entries_row * blobs_row * blob_storage_row * storage_row.

Definition j_entry (r : joined) : blob_entries_row := r.1.1.1.
Definition j_blob (r : joined) : blobs_row := r.1.1.2.
Definition j_placement (r : joined) : blob_storage_row := r.1.2.
Definition j_storage (r : joined) : storage_row := r.2.

(** [FROM blob_entries INNER JOIN blobs ON ... INNER JOIN blob_storage ON ...
    INNER JOIN storage ON ... WHERE blob_entries.hash = ?] *)
Definition cat_join (db : database) (hash : bytes) : list joined :=
  e ← blob_entries db;
  b ← filter (λ b, b_blob_id b = e_blob_id e) (blobs db);
  p ← filter (λ p, p_blob_id p = b_blob_id b) (blob_storage db);
  s ← filter (λ s, s_storage_id s = p_storage_id p) (storage db);
  if decide (e_hash e = hash) then [(e, b, p, s)] else [].

(** [ORDER BY storage.readable_label], under the BINARY collation: the
    byte-wise lexicographic order of the labels. *)
Definition label_le (r1 r2 : joined) : Prop :=
  String.le (s_readable_label (j_storage r1)) (s_readable_label (j_storage r2)).

Global Instance label_le_dec : RelDecision label_le.
Proof. intros r1 r2. unfold label_le. apply _. Defined.

Definition cat_query (db : database) (hash : bytes) : list joined :=
  merge_sort label_le (cat_join db hash).

(** The descriptor [CatReadCloser] builds from the selected row. *)
Definition descriptor (r : joined) : StorageDescriptor :=
  {| StorageID := s_storage_id (j_storage r);
     Kind := s_type (j_storage r);
     Identifier := s_identifier (j_storage r);
     RootPath := s_root_path (j_storage r) |}.

(** The value [CatReadCloser] returns is a stream; it is given by what
    reading it to its end delivers. *)
Definition CatReadCloser `{Registry, Cipher, Compression}
    (hash : bytes) (tx : database) : M decoded :=
  _ ← emit (EvQuery (QCat hash));
  r ← query_row (cat_query tx hash);
  let blobID := e_blob_id (j_entry r) in
  let offset := e_offset (j_entry r) in
  let length := e_final_size (j_entry r) in
  compressionAlg ← scan_string (e_compression_alg (j_entry r));
  let key := b_encryption_key (j_blob r) in
  let path := p_path (j_placement r) in
  let storageID := s_storage_id (j_storage r) in
  let kind := s_type (j_storage r) in
  let identifier := s_identifier (j_storage r) in
  let rootPath := s_root_path (j_storage r) in
  arr ← SliceToArr storageID;
  storageR ← lift (StorageDataToStorage
    {| StorageID := arr; Kind := kind; Identifier := identifier; RootPath := rootPath |});
  reader ← download storageR path offset length;
  let decrypted := DecryptBlobEntry reader offset key in
  let decompressed := Decompress compressionAlg decrypted in
  mret decompressed.

Definition Cat `{Registry, Cipher, Compression} (hash : bytes) (sql : database) : M decoded :=
  CatReadCloser hash sql.

(** [CatEz] runs [Cat] in a transaction of its own on [db.DB]. *)
Definition CatEz `{Registry, Cipher, Compression} (DB : database) (hash : bytes) : M decoded :=
  let tx := DB in
  Cat hash tx.


(** ** paranoia.DownloadEntireBlob *)

Definition DownloadEntireBlob (db : database) (blobID : bytes) (storage : Storage) : M bytes :=
  _ ← emit (EvQuery (QBlobSize blobID));
  b ← query_row (filter (λ b, b_blob_id b = blobID) (blobs db));
  let blobSize := b_size b in
  _ ← emit (EvQuery (QBlobPath blobID (GetID storage)));
  p ← query_row (filter (λ p, p_blob_id p = blobID ∧ p_storage_id p = GetID storage)
                        (blob_storage db));
  download storage (p_path p) 0 blobSize.

(** ** paranoia.BlobReaderParanoia *)

(** [io.TeeReader(outerReader, &hasherPostEnc)]: the bytes of [outerReader]
    not yet read, and the hasher every byte read is written to. *)
Record tee := {
  unread : bytes;
  hasherPostEnc : HasherSizer }.

(** Reading [n] bytes (or as many as remain) through the tee. *)
Definition tee_read (n : nat) (t : tee) : tee :=
  {| unread := drop n (unread t);
     hasherPostEnc := Write (hasherPostEnc t) (take n (unread t)) |}.

(** The tee at the start of [BlobReaderParanoia]. *)
Definition fresh_tee (outerReader : bytes) : tee :=
  {| unread := outerReader; hasherPostEnc := NewSHA256HasherSizer |}.

(** [ORDER BY offset, final_size] *)
Definition entry_le (e1 e2 : blob_entries_row) : Prop :=
  e_offset e1 < e_offset e2 ∨
  (e_offset e1 = e_offset e2 ∧ e_final_size e1 <= e_final_size e2).

Global Instance entry_le_dec : RelDecision entry_le.
Proof. intros e1 e2. unfold entry_le. apply _. Defined.

Definition entries_query (db : database) (blobID : bytes) : list blob_entries_row :=
  merge_sort entry_le (filter (λ e, e_blob_id e = blobID) (blob_entries db)).

(** The body of the [for rows.Next()] loop.  The decompressor is given the
    decrypted bytes that [io.LimitReader] lets through; the bytes it reads
    pass through the tee.  [utils.Copy] writes all the decompressor delivers
    to [verify] and panics on a read error; the [ReadCloserToReader] around
    the decompressor is undone by the [ReaderToReadCloser] inside [Copy]. *)
Definition paranoia_entry `{Cipher, Compression, Digest}
    (row : blob_entries_row) (encReader : tee) : M tee :=
  let hash := e_hash row in
  let key := e_encryption_key row in
  let entrySize := e_final_size row in
  let offset := e_offset row in
  compressionAlg ← scan_string (e_compression_alg row);
  if decide (Size (hasherPostEnc encReader) ≠ offset) then
    panic (PanicMsg "got misaligned somehow. gap between entries??")
  else
    _ ← emit (EvEntry hash);
    let verify := NewSHA256HasherSizer in
    let limited := take (Z.to_nat entrySize) (unread encReader) in
    match Decompress compressionAlg (DecryptBlobEntry limited offset key) with
    | DecodeError => panic ErrCopy
    | Decoded out consumed =>
        let verify := Write verify out in
        let encReader := tee_read (consumed `min` length limited) encReader in
        if decide (Size (hasherPostEnc encReader) ≠ add64 offset entrySize) then
          panic (PanicMsg "entry was wrong size")
        else
          let '(realHash, realSize) := HashAndSize verify in
          if decide (hash ≠ realHash) then
            panic (PanicMsg "decompressed to wrong data!")
          else
            _ ← emit EvHashEqual;
            mret encReader
    end.

Definition BlobReaderParanoia `{Cipher, Compression, Digest}
    (db : database) (outerReader : bytes) (blobID : bytes) (storage : Storage) : M Z :=
  if decide (length blobID ≠ 32%nat) then panic (PanicMsg "sanity check")
  else
    _ ← emit (EvQuery (QBlob blobID));
    b ← query_row (filter (λ b, b_blob_id b = blobID) (blobs db));
    let paddingKey := b_padding_key b in
    let blobSize := b_size b in
    let hashPostEnc := b_final_hash b in
    let encReader := fresh_tee outerReader in
    _ ← emit (EvQuery (QEntries blobID));
    encReader ← foldM paranoia_entry (entries_query db blobID) encReader;
    let remain :=
      DecryptBlobEntry (unread encReader) (Size (hasherPostEnc encReader)) paddingKey in
    let encReader := tee_read (length (unread encReader)) encReader in
    if decide (remain ≠ replicate (length remain) 0) then
      panic (PanicMsg "end padding was not all zeros!")
    else if decide (Size (hasherPostEnc encReader) ≠ blobSize) then
      panic (PanicMsg "sanity check")
    else if decide (hashPostEnc ≠ Hash (hasherPostEnc encReader)) then
      panic (PanicMsg "sanity check")
    else
      _ ← emit EvVerified;
      mret blobSize.


(** The entries [rows], in this order, tile the bytes from [start] on: each
    starts where the previous one ends, and none has a negative length. *)
Fixpoint contiguous (start : Z) (rows : list blob_entries_row) : Prop :=
  match rows with
  | [] => True
  | e :: rest =>
      e_offset e = start ∧ 0 <= e_final_size e ∧
      contiguous (start + e_final_size e) rest
  end.

Definition total_final_size (rows : list blob_entries_row) : Z :=
  foldr (λ e acc, e_final_size e + acc) 0 rows.

(** The hashes of the entries a run announced, in order. *)
Definition entry_events (l : list event) : list bytes :=
  omap (λ ev, match ev with EvEntry h => Some h | _ => None end) l.

(** The tee has read a prefix of [outer], and the counter of its hasher has
    not wrapped. *)
Definition tee_inv (outer : bytes) (t : tee) : Prop :=
  hasher (hasherPostEnc t) ++ unread t = outer ∧
  size (hasherPostEnc t) = Z.of_nat (length (hasher (hasherPostEnc t))).

(** What a successful verification of the stream [outer] against the rows of
    blob [blobID] establishes: after the bytes of the entries, the rest of the
    stream decrypts to zeros under the padding key, from the offset where the
    last entry ends; the stream has the recorded size; its digest is the
    recorded one. *)
Definition blob_verified `{Cipher, Digest}
    (db : database) (outer : bytes) (blobID : bytes) : Prop :=
  ∃ b, head (filter (λ b, b_blob_id b = blobID) (blobs db)) = Some b ∧
    let used := total_final_size (entries_query db blobID) in
    let padding := drop (Z.to_nat used) outer in
    0 <= used <= Z.of_nat (length outer) ∧
    DecryptBlobEntry padding used (b_padding_key b) = replicate (length padding) 0 ∧
    Z.of_nat (length outer) = b_size b ∧
    used + Z.of_nat (length padding) = b_size b ∧
    sha256 outer = b_final_hash b.

(** ** paranoia.BlobParanoia *)

(** [strings.Split(s, "\n")] *)
Fixpoint Split_lf (s : string) : list string :=
  match s with
  | EmptyString => [""]
  | String c s' =>
      if decide (c = "010"%char) then "" :: Split_lf s'
      else match Split_lf s' with
           | cur :: rest => String c cur :: rest
           | [] => [String c ""]
           end
  end.

(** [encoding/hex]: the value of a hexadecimal digit, either case. *)
Definition fromHexChar (c : ascii) : option Z :=
  let n := Z.of_N (N_of_ascii c) in
  if decide (48 <= n <= 57) then Some (n - 48)
  else if decide (97 <= n <= 102) then Some (n - 97 + 10)
  else if decide (65 <= n <= 70) then Some (n - 65 + 10)
  else None.


(** [hex.DecodeString]: [None] stands for its error (an invalid byte or an
    odd length). *)
Fixpoint DecodeString (s : string) : option bytes :=
  match s with
  | EmptyString => Some []
  | String p EmptyString => None
  | String p (String q s') =>
      a ← fromHexChar p;
      b ← fromHexChar q;
      rest ← DecodeString s';
      Some (Z.lor (Z.shiftl a 4) b :: rest)
  end.

(** The body of [for i, line := range lines]; [sz] is the running total of
    downloaded bytes.  The progress line printed after each blob (the index
    of the line, the number of lines and [sz]) is not among the events. *)
Definition BlobParanoia_line `{Cipher, Compression, Digest}
    (db : database) (storage : Storage) (line : string) (sz : Z) : M Z :=
  if decide (line = "") then mret sz
  else
    _ ← emit (EvLine line);
    if decide (String.length line ≠ 64%nat) then
      panic (PanicMsg "Line length is not 64")
    else
      match DecodeString line with
      | None => panic ErrHex
      | Some blobID =>
          reader ← DownloadEntireBlob db blobID storage;
          n ← BlobReaderParanoia db reader blobID storage;
          mret (add64 sz n)
      end.

Definition BlobParanoia `{Registry, Cipher, Compression, Digest}
    (db : database) (stdin : string) (label : string) : M unit :=
  match StorageSelect label with
  | None => mret tt
  | Some storage =>
      let lines := Split_lf stdin in
      _ ← foldM (BlobParanoia_line db storage) lines 0;
      mret tt
  end.

(** ** utils.ReadCloserToReader and utils.ReaderToReadCloser

    The two wrappers are pointers to structs, and [fakeReader.pipeR] is
    assigned by the first [Read]; they live in a store.  An interface value
    is a pointer into the store or a value of a type declared elsewhere,
    which may or may not have a [Close] method. *)

Definition loc := nat.

Inductive iface :=
  | Foreign (id : nat) (closer : bool)
  | Ptr (l : loc).

Inductive object :=
  | fakeReader (rc : iface) (pipeR : option loc)
  | fakeReadCloser (r : iface).

Global Instance iface_eq_dec : EqDecision iface.
Proof. solve_decision. Defined.
Global Instance object_eq_dec : EqDecision object.
Proof. solve_decision. Defined.

(** [frc, ok := in.( *fakeReadCloser)] *)
Definition as_fakeReadCloser (h : gmap loc object) (v : iface) : option iface :=
  match v with
  | Ptr l => match h !! l with
             | Some (fakeReadCloser r) => Some r
             | _ => None
             end
  | Foreign _ _ => None
  end.

(** [fr, ok := in.( *fakeReader)] *)
Definition as_fakeReader (h : gmap loc object) (v : iface) : option (iface * option loc) :=
  match v with
  | Ptr l => match h !! l with
             | Some (fakeReader rc pipeR) => Some (rc, pipeR)
             | _ => None
             end
  | Foreign _ _ => None
  end.

(** [rc, ok := in.(io.ReadCloser)]: [fakeReadCloser] has [Read] and [Close],
    [fakeReader] only [Read]. *)
Definition is_ReadCloser (h : gmap loc object) (v : iface) : bool :=
  match v with
  | Foreign _ closer => closer
  | Ptr l => match h !! l with
             | Some (fakeReadCloser _) => true
             | _ => false
             end
  end.

(** [&T{...}]: a new object at an address not in use. *)
Definition alloc (o : object) (h : gmap loc object) : iface * gmap loc object :=
  let l := fresh (dom h) in (Ptr l, <[l := o]> h).

Definition ReadCloserToReader (in_ : iface) (h : gmap loc object) : iface * gmap loc object :=
  match as_fakeReadCloser h in_ with
  | Some r => (r, h)
  | None => alloc (fakeReader in_ None) h
  end.

Definition ReaderToReadCloser (in_ : iface) (h : gmap loc object) : iface * gmap loc object :=
  match as_fakeReader h in_ with
  | Some (rc, None) => (rc, h)
  | _ => if is_ReadCloser h in_ then (in_, h) else alloc (fakeReadCloser in_) h
  end.

(** The effect of [fakeReader.Read] on the store: the first call creates
    the pipe and records it in [pipeR]. *)
Definition fakeReader_Read (l : loc) (h : gmap loc object) : gmap loc object :=
  match h !! l with
  | Some (fakeReader rc None) => <[l := fakeReader rc (Some l)]> h
  | _ => h
  end.

(** The stream a value reads its bytes from: the wrapped stream for the two
    wrappers, the value itself otherwise. *)
Definition reads_from (h : gmap loc object) (v : iface) : iface :=
  match v with
  | Ptr l => match h !! l with
             | Some (fakeReader rc _) => rc
             | Some (fakeReadCloser r) => r
             | None => v
             end
  | Foreign _ _ => v
  end.


(** ** An example store

    The single-entry round trip of the specification, with an empty file
    added and the blob placed on two storages.  The cipher, codec and digest
    below are small stand-ins that compute: a keystream that depends on the
    key and the offset, the identity codec, and the identity as a
    collision-free digest. *)

Definition example_cipher : Cipher :=
  {| keystream key offset := (hd 0 key + offset) `mod` 256 |}.

Definition example_compression : Compression :=
  {| Compress _ c := c; Decompress _ c := Decoded c (length c) |}.

Definition example_digest : Digest := {| sha256 c := c |}.

Definition hello : bytes := [104; 101; 108; 108; 111].

Definition example_blob_id : bytes := replicate 32 1.
Definition example_key : bytes := [17].
Definition example_padding_key : bytes := [42].

Definition example_blob : bytes :=
  @EncryptBlobEntry example_cipher hello 0 example_key ++
  @EncryptBlobEntry example_cipher (replicate 11 0) 5 example_padding_key.

Definition storage_id_aa : bytes := replicate 32 10.
Definition storage_id_bb : bytes := replicate 32 11.

Definition storage_aa : Storage :=
  {| GetID := storage_id_aa;
     DownloadSection path offset length :=
       if decide (path = "p_aa")
       then Ok (take (Z.to_nat length) (drop (Z.to_nat offset) example_blob))
       else Panic ErrBackend |}.

(** A backend that returns garbage. *)
Definition storage_bb : Storage :=
  {| GetID := storage_id_bb;
     DownloadSection path offset length := Ok (replicate (Z.to_nat length) 255) |}.

Definition example_registry : Registry :=
  {| StorageDataToStorage d :=
       if decide (Identifier d = "aa") then Ok storage_aa else Ok storage_bb;
     StorageSelect label :=
       if decide (label = "aa") then Some storage_aa
       else if decide (label = "bb") then Some storage_bb
       else None |}.

Definition entry_hello (key : bytes) : blob_entries_row :=
  {| e_hash := hello; e_blob_id := example_blob_id; e_encryption_key := key;
     e_final_size := 5; e_offset := 0; e_compression_alg := Some "" |}.

Definition entry_empty : blob_entries_row :=
  {| e_hash := []; e_blob_id := example_blob_id; e_encryption_key := [23];
     e_final_size := 0; e_offset := 0; e_compression_alg := Some "" |}.

Definition example_blob_row (key : bytes) : blobs_row :=
  {| b_blob_id := example_blob_id; b_encryption_key := key;
     b_padding_key := example_padding_key; b_size := 16;
     b_final_hash := example_blob |}.

Definition example_store (blob_key : bytes) : database :=
  {| hashes := [ {| h_hash := hello; h_size := 5 |}; {| h_hash := []; h_size := 0 |} ];
     blobs := [ example_blob_row blob_key ];
     blob_entries := [ entry_hello example_key; entry_empty ];
     blob_storage :=
       [ {| p_blob_id := example_blob_id; p_storage_id := storage_id_bb; p_path := "p_bb" |};
         {| p_blob_id := example_blob_id; p_storage_id := storage_id_aa; p_path := "p_aa" |} ];
     storage :=
       [ {| s_storage_id := storage_id_bb; s_readable_label := "bb"; s_type := "disk";
            s_identifier := "bb"; s_root_path := "/" |};
         {| s_storage_id := storage_id_aa; s_readable_label := "aa"; s_type := "disk";
            s_identifier := "aa"; s_root_path := "/" |} ] |}.

(** The blob row carries the key of its entry. *)
Definition example_db : database := example_store example_key.


Definition row_aa (blob_key : bytes) : joined :=
  (entry_hello example_key, example_blob_row blob_key,
   {| p_blob_id := example_blob_id; p_storage_id := storage_id_aa; p_path := "p_aa" |},
   {| s_storage_id := storage_id_aa; s_readable_label := "aa"; s_type := "disk";
      s_identifier := "aa"; s_root_path := "/" |}).

Definition row_bb (blob_key : bytes) : joined :=
  (entry_hello example_key, example_blob_row blob_key,
   {| p_blob_id := example_blob_id; p_storage_id := storage_id_bb; p_path := "p_bb" |},
   {| s_storage_id := storage_id_bb; s_readable_label := "bb"; s_type := "disk";
      s_identifier := "bb"; s_root_path := "/" |}).


(** ** utils.findGitignore *)

(** An [fs.DirEntry], as far as the walker looks at it: its name, whether it
    is a directory, and whether its type is that of a regular file. *)
Record DirEntry := {
  Name : string;
  IsDir : bool;
  IsRegular : bool }.

(** The loop of [sort.Search] of the Go standard library:
    [for i < j { h := int(uint(i+j) >> 1); if !f(h) { i = h + 1 } else { j = h } }].
    The indices are bounded by the length of a slice, so [i+j] does not
    leave [uint] and [h] is the exact half. *)
Equations? Search_loop (f : nat → bool) (i j : nat) : nat by wf (j - i)%nat lt :=
  Search_loop f i j with decide (i < j)%nat := {
    | left _ with f ((i + j) / 2)%nat := {
        | true := Search_loop f i ((i + j) / 2)%nat;
        | false := Search_loop f ((i + j) / 2 + 1)%nat j };
    | right _ := i }.
Proof.
  all: change (Nat.divmod (i + j) 1 0 1).1 with ((i + j) / 2)%nat;
    pose proof (Nat.div_mod_eq (i + j) 2);
    pose proof (Nat.mod_upper_bound (i + j) 2); lia.
Qed.

Definition Search (n : nat) (f : nat → bool) : nat := Search_loop f 0 n.

(** [ls[i].Name() >= ".gitignore"], the predicate of the search.  [Search]
    calls it inside the bounds of [ls] only. *)
Definition at_or_after_gitignore (ls : list DirEntry) (i : nat) : bool :=
  match ls !! i with
  | Some e => bool_decide (String.le ".gitignore" (Name e))
  | None => false
  end.

Definition findGitignore (ls : list DirEntry) : Z :=
  let gitignoreIdx := Search (length ls) (at_or_after_gitignore ls) in
  match ls !! gitignoreIdx with
  | Some e => if decide (Name e = ".gitignore") then Z.of_nat gitignoreIdx else -1
  | None => -1
  end.

(** [os.ReadDir] returns the entries sorted by file name. *)
Definition name_le (e1 e2 : DirEntry) : Prop := String.le (Name e1) (Name e2).


(** ** Blobs that verify

    The entries [rows], in this order, lie head to tail in [data] from
    [offset] on, and each one decrypts and decompresses, reading all its
    bytes, to content of the recorded digest. *)
Fixpoint entries_well_formed `{Cipher, Compression, Digest}
    (rows : list blob_entries_row) (offset : Z) (data : bytes) : Prop :=
  match rows with
  | [] => True
  | row :: rest =>
      let n := Z.to_nat (e_final_size row) in
      e_offset row = offset ∧ 0 <= e_final_size row ∧ (n ≤ length data)%nat ∧
      (∃ alg out consumed,
         e_compression_alg row = Some alg ∧
         Decompress alg (DecryptBlobEntry (take n data) offset (e_encryption_key row))
           = Decoded out consumed ∧
         (n ≤ consumed)%nat ∧
         e_hash row = sha256 out) ∧
      entries_well_formed rest (offset + e_final_size row) (drop n data)
  end.


(** ** Hexadecimal ids

    [hex.EncodeToString] of the Go standard library writes
    [hextable[v>>4]] and [hextable[v&0x0f]] for every byte [v], with
    [hextable = "0123456789abcdef"]; the [hex()] of SQLite, which the usage
    message of [BlobParanoia] pipes in, does the same in upper case. *)
Definition hextable : string := "0123456789abcdef".
Definition hextable_upper : string := "0123456789ABCDEF".

Definition table_char (table : string) (v : Z) : ascii :=
  default "000"%char (String.get (Z.to_nat v) table).

Fixpoint encode_hex (table : string) (src : bytes) : string :=
  match src with
  | [] => ""
  | v :: src' =>
      String (table_char table (Z.shiftr v 4))
        (String (table_char table (Z.land v 15)) (encode_hex table src'))
  end.

Definition EncodeToString (src : bytes) : string := encode_hex hextable src.

(** The two digits of a byte decode to the byte, and neither is a line
    feed. *)
Definition byte_round_trips (table : string) (v : Z) : Prop :=
  fromHexChar (table_char table (Z.shiftr v 4)) = Some (Z.shiftr v 4) ∧
  fromHexChar (table_char table (Z.land v 15)) = Some (Z.land v 15) ∧
  Z.lor (Z.shiftl (Z.shiftr v 4) 4) (Z.land v 15) = v ∧
  table_char table (Z.shiftr v 4) ≠ "010"%char ∧
  table_char table (Z.land v 15) ≠ "010"%char.

Global Instance byte_round_trips_dec table v : Decision (byte_round_trips table v).
Proof. unfold byte_round_trips. apply _. Defined.

(** The standard input that lists the ids, one to a line. *)
Definition id_lines (table : string) (ids : list bytes) : string :=
  foldr (λ id rest, encode_hex table id +:+ String "010" rest) "" ids.

(** ** utils.isIgnored *)

(** An [IgnorePattern] as far as [isIgnored] reads it. *)
Record IgnorePattern := {
  Negate : bool }.

(** The compiled ignore files are used through [MatchesPathHow]; the pattern
    it returns is read only when the path matches. *)
Class IgnoreMatcher (GitIgnore : Type) := {
  MatchesPathHow : GitIgnore → string → bool * IgnorePattern }.

Record ignoreWrapper (GitIgnore : Type) := {
  basePath : string;
  ignore_file : GitIgnore }.
Arguments basePath {GitIgnore} _.
Arguments ignore_file {GitIgnore} _.

Fixpoint string_drop (k : nat) (s : string) : string :=
  match k, s with
  | O, _ => s
  | S k', String _ s' => string_drop k' s'
  | S _, EmptyString => ""
  end.

(** The slice expression [s[k:]], which panics when [k] is beyond the end. *)
Definition slice_from (s : string) (k : nat) : M string :=
  if decide (k ≤ String.length s)%nat then mret (string_drop k s)
  else panic (PanicMsg "slice bounds out of range").

(** The body of [for _, gitIgnore := range gitIgnores]. *)
Definition isIgnored_step `{IgnoreMatcher GitIgnore}
    (absPath : string) (gitIgnore : ignoreWrapper GitIgnore) (ignored : bool) : M bool :=
  relative ← slice_from absPath (String.length (basePath gitIgnore) + 1);
  let '(matches, pattern) := MatchesPathHow (ignore_file gitIgnore) relative in
  if matches then mret (negb (Negate pattern)) else mret ignored.

Definition isIgnored `{IgnoreMatcher GitIgnore}
    (absPath : string) (isDir : bool) (gitIgnores : list (ignoreWrapper GitIgnore)) : M bool :=
  let absPath := if isDir then absPath +:+ "/" else absPath in
  let ignored := false in
  foldM (isIgnored_step absPath) gitIgnores ignored.

(** Whether the ignore file of [g] has a pattern for [path], and what it
    says then. *)
Definition matches_path `{IgnoreMatcher GitIgnore}
    (path : string) (g : ignoreWrapper GitIgnore) : Prop :=
  (MatchesPathHow (ignore_file g)
     (string_drop (String.length (basePath g) + 1) path)).1 = true.

Global Instance matches_path_dec `{IgnoreMatcher GitIgnore} path g :
  Decision (matches_path path g).
Proof. unfold matches_path. apply _. Defined.

Definition verdict `{IgnoreMatcher GitIgnore}
    (path : string) (g : ignoreWrapper GitIgnore) : bool :=
  negb (Negate (MatchesPathHow (ignore_file g)
                  (string_drop (String.length (basePath g) + 1) path)).2).


(** ** utils.FormatCommas *)

(** The class [\d] of Go's [regexp]: the ASCII digits. *)
Definition is_digit (c : ascii) : bool :=
  bool_decide (48 <= Z.of_N (N_of_ascii c) <= 57).

(** What [re.ReplaceAllString(str, "$1,$2")] makes of a maximal run of
    digits, for [re = (\d+)(\d{3})].  A match needs four digits, so it starts
    at the first digit of a run of at least four; the greedy [\d+] then
    takes all of the run but its last three digits, and the search goes on
    behind the run. *)
Definition flush_run (run : list ascii) : list ascii :=
  if decide (4 ≤ length run)%nat
  then take (length run - 3) run ++ ","%char :: drop (length run - 3) run
  else run.

(** The replacement, reading the string from its end: the digits of the run
    being read, and the output for what lies behind it. *)
Definition replace_step (c : ascii) (st : list ascii * list ascii)
    : list ascii * list ascii :=
  if is_digit c then (c :: st.1, st.2) else ([], c :: flush_run st.1 ++ st.2).

Definition ReplaceAllString (str : list ascii) : list ascii :=
  let st := foldr replace_step ([], []) str in
  flush_run st.1 ++ st.2.

(** [for n := ""; n != str; { n = str; str = re.ReplaceAllString(str, "$1,$2") }],
    with a bound on the number of rounds; [None] when the bound is reached. *)
Fixpoint FormatCommas_loop (rounds : nat) (n str : list ascii) : option (list ascii) :=
  if decide (n = str) then Some str
  else match rounds with
       | O => None
       | S rounds' => FormatCommas_loop rounds' str (ReplaceAllString str)
       end.

Definition FormatCommas (num : Z) : option string :=
  let str := String.list_ascii_of_string (FormatInt num) in
  String.string_of_list_ascii <$> FormatCommas_loop (length str) [] str.

(** A group of three digits. *)
Definition digit_group (g : list ascii) : Prop :=
  length g = 3%nat ∧ Forall (λ c, is_digit c = true) g.

Definition strip_commas (s : list ascii) : list ascii :=
  filter (λ c, c ≠ ","%char) s.

(** The groups of digits of a number with its separators. *)
Definition with_commas (first : list ascii) (groups : list (list ascii)) : list ascii :=
  first ++ mjoin ((λ g, ","%char :: g) <$> groups).

(** ** Further examples

    A directory listing in the order of [os.ReadDir]; ignore files that
    hold pairs of a relative path and whether the pattern is a negation, the
    last pattern for a path being the one that counts; and the example store
    with an entry of another hash added and its table [hashes] emptied. *)

Definition example_listing : list DirEntry :=
  [ {| Name := ".git"; IsDir := true; IsRegular := false |};
    {| Name := ".gitignore"; IsDir := false; IsRegular := true |};
    {| Name := "main.go"; IsDir := false; IsRegular := true |} ].

Definition example_matcher : IgnoreMatcher (list (string * bool)) :=
  {| MatchesPathHow file path :=
       match last (filter (λ pat, pat.1 = path) file) with
       | Some pat => (true, {| Negate := pat.2 |})
       | None => (false, {| Negate := false |})
       end |}.

Definition example_ignores : list (ignoreWrapper (list (string * bool))) :=
  [ {| basePath := "/r"; ignore_file := [("a/b.txt", false); ("c", false)] |};
    {| basePath := "/r/a"; ignore_file := [("b.txt", true)] |} ].

Definition example_db_more : database :=
  {| hashes := [];
     blobs := blobs example_db;
     blob_entries :=
       {| e_hash := [7]; e_blob_id := example_blob_id; e_encryption_key := [1];
          e_final_size := 3; e_offset := 0; e_compression_alg := None |}
       :: blob_entries example_db;
     blob_storage := blob_storage example_db;
     storage := storage example_db |}.

(** * Properties *)

Section Int64.

Lemma wrap64_range z : in_int64 (wrap64 z).
Proof.
  unfold in_int64, wrap64, int64_min, int64_max.
  pose proof (Z.mod_pos_bound (z + 2 ^ 63) (2 ^ 64)). lia.
Qed.

Lemma wrap64_id z : in_int64 z → wrap64 z = z.
Proof.
  unfold in_int64, wrap64, int64_min, int64_max. intros Hz.
  rewrite Z.mod_small by lia. lia.
Qed.

Lemma wrap64_idem_add a b : wrap64 (wrap64 a + b) = wrap64 (a + b).
Proof.
  unfold wrap64.
  replace ((a + 2 ^ 63) mod 2 ^ 64 - 2 ^ 63 + b + 2 ^ 63)
    with ((a + 2 ^ 63) mod 2 ^ 64 + b) by lia.
  rewrite Zplus_mod_idemp_l. do 2 f_equal. lia.
Qed.

Lemma wrap64_inj_small a b :
  wrap64 a = wrap64 b → - 2 ^ 64 < a - b < 2 ^ 64 → a = b.
Proof.
  unfold wrap64. intros Heq Hab.
  assert (Hm : (a + 2 ^ 63) mod 2 ^ 64 = (b + 2 ^ 63) mod 2 ^ 64) by lia.
  pose proof (Z.div_mod (a + 2 ^ 63) (2 ^ 64)) as Ha.
  pose proof (Z.div_mod (b + 2 ^ 63) (2 ^ 64)) as Hb.
  lia.
Qed.

End Int64.

Example FormatInt_0 : FormatInt 0 = "0".
Proof. reflexivity. Qed.
Example FormatInt_neg : FormatInt (-120) = "-120".
Proof. reflexivity. Qed.
Example FormatHTTPRange_ex : FormatHTTPRange 100 50 = "bytes=100-149".
Proof. reflexivity. Qed.

(** The decimal rendering can be read back, so it determines the number. *)
Lemma FormatInt_parse z : NilZero.int_of_string (FormatInt z) = Some (Z.to_int z).
Proof.
  unfold FormatInt. apply NilZero.isi.
  - destruct z as [|q|q]; simpl; try discriminate.
    intros [= Hq]. revert Hq. apply DecimalPos.Unsigned.to_uint_nonnil.
  - destruct z as [|q|q]; simpl; try discriminate.
    intros [= Hq]. revert Hq. apply DecimalPos.Unsigned.to_uint_nonnil.
Qed.

Lemma FormatInt_inj a b : FormatInt a = FormatInt b → a = b.
Proof.
  intros Heq. apply DecimalZ.to_int_inj.
  pose proof (FormatInt_parse a) as Ha. rewrite Heq, FormatInt_parse in Ha.
  congruence.
Qed.

(** C9: for every offset and length the range header of the ranged read of
    [[offset, offset+length)] is ["bytes=" ++ offset ++ "-" ++
    (offset+length-1)], the numbers in decimal and the inclusive end
    [offset+length-1] computed in [int64]; where that end is representable
    it is the mathematical [offset+length-1]. *)
Theorem FormatHTTPRange_inclusive (offset length : Z) :
  FormatHTTPRange offset length =
    "bytes=" +:+ FormatInt offset +:+ "-" +:+ FormatInt (wrap64 (offset + length - 1)) ∧
  (in_int64 (offset + length - 1) →
   FormatHTTPRange offset length =
     "bytes=" +:+ FormatInt offset +:+ "-" +:+ FormatInt (offset + length - 1)).
Proof.
  assert (Hwrap : sub64 (add64 offset length) 1 = wrap64 (offset + length - 1)).
  { unfold sub64, add64.
    replace (wrap64 (offset + length) - 1) with (wrap64 (offset + length) + -1) by lia.
    rewrite wrap64_idem_add. f_equal; lia. }
  unfold FormatHTTPRange. rewrite Hwrap. split; [done|].
  intros Hend. by rewrite (wrap64_id _ Hend).
Qed.

(** ** The monad of runs *)

Lemma bind_Ok_inv {A B} (m : M A) (f : A → M B) l b :
  m ≫= f = (l, Ok b) →
  ∃ l1 a l2, m = (l1, Ok a) ∧ f a = (l2, Ok b) ∧ l = l1 ++ l2.
Proof.
  destruct m as [l1 [a|e]]; simpl; [|discriminate].
  destruct (f a) as [l2 r] eqn:Hf. intros [= <- ->]. eauto 6.
Qed.

Lemma bind_Ok {A B} (f : A → M B) l a :
  ((l, Ok a) : M A) ≫= f = ((l ++ (f a).1), (f a).2).
Proof. simpl. by destruct (f a). Qed.

Lemma bind_Panic {A B} (f : A → M B) l e : ((l, Panic e) : M A) ≫= f = (l, Panic e).
Proof. done. Qed.

Lemma bind_emit {B} (ev : event) (k : unit → M B) :
  emit ev ≫= k = (ev :: (k tt).1, (k tt).2).
Proof. unfold emit. by rewrite bind_Ok. Qed.

Lemma bind_ret {A B} (a : A) (k : A → M B) : mret a ≫= k = k a.
Proof. unfold mret, M_ret. rewrite bind_Ok. by destruct (k a). Qed.

Lemma bind_panic {A B} (e : panic_value) (k : A → M B) : panic e ≫= k = panic e.
Proof. done. Qed.

Lemma outcome_cases {A} (m : M A) :
  (∃ a, outcome m = Ok a) ∨ (∃ e, outcome m = Panic e).
Proof. destruct m as [l [a|e]]; simpl; eauto. Qed.

(** ** The cipher *)

Section CipherFacts.
Context `{Cipher}.

Lemma length_DecryptBlobEntry src offset key :
  length (DecryptBlobEntry src offset key) = length src.
Proof. revert offset. induction src as [|b src IH]; intros; simpl; auto. Qed.



Lemma DecryptBlobEntry_app src1 src2 offset key :
  DecryptBlobEntry (src1 ++ src2) offset key =
  DecryptBlobEntry src1 offset key ++
  DecryptBlobEntry src2 (offset + Z.of_nat (length src1)) key.
Proof.
  revert offset. induction src1 as [|b src1 IH]; intros offset; simpl.
  - by rewrite Z.add_0_r.
  - rewrite IH. do 3 f_equal. lia.
Qed.
End CipherFacts.

(** ** Retrieval *)

Section Cat.
Context `{Registry, Cipher, Compression, Digest}.

Global Instance label_le_trans : Transitive label_le.
Proof. intros x y z. unfold label_le. apply transitivity. Qed.

Global Instance label_le_total : Total label_le.
Proof. intros x y. unfold label_le. apply total, _. Qed.

Lemma elem_of_cat_join db hash r :
  r ∈ cat_join db hash ↔
  j_entry r ∈ blob_entries db ∧ j_blob r ∈ blobs db ∧
  j_placement r ∈ blob_storage db ∧ j_storage r ∈ storage db ∧
  e_hash (j_entry r) = hash ∧
  b_blob_id (j_blob r) = e_blob_id (j_entry r) ∧
  p_blob_id (j_placement r) = b_blob_id (j_blob r) ∧
  s_storage_id (j_storage r) = p_storage_id (j_placement r).
Proof.
  destruct r as [[[e b] p] s]. unfold cat_join, j_entry, j_blob, j_placement, j_storage.
  simpl. split.
  - intros (e' & (b' & (p' & (s' & Hr & Hs)%list_elem_of_bind & Hp)%list_elem_of_bind
                     & Hb)%list_elem_of_bind & He)%list_elem_of_bind.
    apply list_elem_of_filter in Hs as [Hs1 Hs2].
    apply list_elem_of_filter in Hp as [Hp1 Hp2].
    apply list_elem_of_filter in Hb as [Hb1 Hb2].
    case_decide; [|by apply elem_of_nil in Hr].
    apply list_elem_of_singleton in Hr. simplify_eq. done.
  - intros (He & Hb & Hp & Hs & Hh & Hb' & Hp' & Hs').
    apply list_elem_of_bind. exists e. split; [|done].
    apply list_elem_of_bind. exists b. split; [|by apply list_elem_of_filter].
    apply list_elem_of_bind. exists p. split; [|by apply list_elem_of_filter].
    apply list_elem_of_bind. exists s. split; [|by apply list_elem_of_filter].
    rewrite decide_True by done. by apply list_elem_of_singleton.
Qed.

Lemma cat_query_Permutation db hash : cat_query db hash ≡ₚ cat_join db hash.
Proof. apply merge_sort_Permutation. Qed.


Lemma cat_query_nil db hash : cat_query db hash = [] ↔ cat_join db hash = [].
Proof.
  split; intros Hnil.
  - apply Permutation_nil_r. rewrite <- Hnil. symmetry. apply cat_query_Permutation.
  - apply Permutation_nil_r. rewrite <- Hnil. apply cat_query_Permutation.
Qed.



(** What [CatReadCloser] does once the query has produced the row [r]. *)
Lemma CatReadCloser_row hash tx r rest alg st :
  cat_query tx hash = r :: rest →
  e_compression_alg (j_entry r) = Some alg →
  length (s_storage_id (j_storage r)) = 32%nat →
  StorageDataToStorage (descriptor r) = Ok st →
  CatReadCloser hash tx =
    ([EvQuery (QCat hash);
      EvDownload (GetID st) (p_path (j_placement r)) (e_offset (j_entry r))
                 (e_final_size (j_entry r))],
     match DownloadSection st (p_path (j_placement r)) (e_offset (j_entry r))
                           (e_final_size (j_entry r)) with
     | Ok reader =>
         Ok (Decompress alg (DecryptBlobEntry reader (e_offset (j_entry r))
                                              (b_encryption_key (j_blob r))))
     | Panic e => Panic e
     end).
Proof.
  intros Hq Halg Hlen Hst. unfold CatReadCloser, download, SliceToArr.
  rewrite Hq. simpl. rewrite Halg. simpl.
  rewrite decide_True by done. simpl. fold (descriptor r). rewrite Hst. simpl.
  by destruct (DownloadSection st _ _ _) as [reader|e].
Qed.


Lemma CatReadCloser_miss hash tx :
  cat_join tx hash = [] →
  CatReadCloser hash tx = ([EvQuery (QCat hash)], Panic ErrNoRows).
Proof.
  intros Hj%cat_query_nil. unfold CatReadCloser. by rewrite Hj.
Qed.



(** C7, as the code has it: for a hash that has no row in [blob_entries]
    joined to a blob, a placement and a storage, [CatReadCloser] panics
    with the no-rows error of the query; it has made the one query and no
    download. *)
Theorem cat_miss_panics db hash :
  (∀ e b p s, e ∈ blob_entries db → b ∈ blobs db →
     p ∈ blob_storage db → s ∈ storage db →
     e_hash e = hash → b_blob_id b = e_blob_id e →
     p_blob_id p = b_blob_id b → s_storage_id s = p_storage_id p → False) →
  CatReadCloser hash db = ([EvQuery (QCat hash)], Panic ErrNoRows).
Proof.
  intros Hmiss. apply CatReadCloser_miss. apply elem_of_nil_inv.
  intros [[[e b] p] s] Hr%elem_of_cat_join.
  destruct Hr as (? & ? & ? & ? & ? & ? & ? & ?). by eapply (Hmiss e b p s).
Qed.
End Cat.

(** ** Blob paranoia *)

Section Paranoia.
Context `{Cipher, Compression, Digest}.

Global Instance entry_le_refl : Reflexive entry_le.
Proof. intros x. unfold entry_le. lia. Qed.

Global Instance entry_le_trans : Transitive entry_le.
Proof. intros x y z. unfold entry_le. lia. Qed.

Global Instance entry_le_total : Total entry_le.
Proof. intros x y. unfold entry_le. lia. Qed.

Lemma entries_query_Permutation db blobID :
  entries_query db blobID ≡ₚ filter (λ e, e_blob_id e = blobID) (blob_entries db).
Proof. apply merge_sort_Permutation. Qed.


Lemma elem_of_entries_query db blobID e :
  e ∈ entries_query db blobID ↔ e ∈ blob_entries db ∧ e_blob_id e = blobID.
Proof. rewrite entries_query_Permutation, list_elem_of_filter. tauto. Qed.


Lemma tee_read_inv outer n t :
  Z.of_nat (length outer) <= int64_max → tee_inv outer t →
  tee_inv outer (tee_read n t) ∧
  Size (hasherPostEnc (tee_read n t)) =
    Size (hasherPostEnc t) + Z.of_nat (n `min` length (unread t)).
Proof.
  destruct t as [u [sz hs]]. unfold tee_inv, tee_read, Write, Size. simpl.
  intros Hb [<- ->]. rewrite length_app in Hb.
  assert (Hadd : add64 (Z.of_nat (length hs)) (Z.of_nat (length (take n u))) =
                 Z.of_nat (length hs) + Z.of_nat (n `min` length u)).
  { rewrite length_take. unfold add64. apply wrap64_id.
    unfold in_int64, int64_min, int64_max in *. lia. }
  split_and!.
  - by rewrite <- app_assoc, take_drop.
  - rewrite Hadd, length_app, length_take. lia.
  - done.
Qed.

(** A pass of the loop body that does not panic. *)
Lemma paranoia_entry_Ok_inv row t l t' :
  paranoia_entry row t = (l, Ok t') →
  ∃ alg out consumed,
    e_compression_alg row = Some alg ∧
    Size (hasherPostEnc t) = e_offset row ∧
    Decompress alg
      (DecryptBlobEntry (take (Z.to_nat (e_final_size row)) (unread t))
                        (e_offset row) (e_encryption_key row)) = Decoded out consumed ∧
    t' = tee_read (consumed `min`
                     length (take (Z.to_nat (e_final_size row)) (unread t))) t ∧
    Size (hasherPostEnc t') = add64 (e_offset row) (e_final_size row) ∧
    e_hash row = sha256 out ∧
    l = [EvEntry (e_hash row); EvHashEqual].
Proof.
  unfold paranoia_entry.
  destruct (e_compression_alg row) as [alg|]; simpl; [|discriminate].
  case_decide as Hoff; simpl; [discriminate|].
  destruct (Decompress alg _) as [out consumed|] eqn:Hdec; simpl; [|discriminate].
  case_decide as Hend; simpl; [discriminate|].
  case_decide as Hhash; simpl; [discriminate|].
  intros [= <- <-]. exists alg, out, consumed.
  split_and!; done.
Qed.


(** With a counter that has not wrapped and 64-bit columns, the pass read
    exactly [final_size] bytes. *)
Lemma paranoia_entry_exact outer row t l t' :
  Z.of_nat (length outer) <= int64_max → tee_inv outer t → entry_int64 row →
  paranoia_entry row t = (l, Ok t') →
  e_offset row = Size (hasherPostEnc t) ∧ 0 <= e_final_size row ∧
  tee_inv outer t' ∧
  Size (hasherPostEnc t') = Size (hasherPostEnc t) + e_final_size row.
Proof.
  intros Hb Hinv [Hoff64 Hsz64] Hrun.
  apply paranoia_entry_Ok_inv in Hrun
    as (alg & out & consumed & _ & Hoff & _ & -> & Hend & _ & _).
  set (k := (consumed `min` length (take (Z.to_nat (e_final_size row)) (unread t)))%nat)
    in *.
  destruct (tee_read_inv outer k t Hb Hinv) as [Hinv' Hsize'].
  assert (Hk : (k ≤ Z.to_nat (e_final_size row))%nat ∧ (k ≤ length (unread t))%nat).
  { unfold k. rewrite length_take. lia. }
  rewrite Nat.min_l in Hsize' by lia.
  rewrite Hoff in Hsize'. rewrite Hsize' in Hend.
  assert (Hrange : 0 <= e_offset row ∧ e_offset row + Z.of_nat k <= int64_max).
  { destruct Hinv as [Hout Hs]. unfold Size in Hoff. rewrite Hs in Hoff.
    rewrite <- Hout, length_app in Hb. lia. }
  assert (Heq : e_offset row + e_final_size row = e_offset row + Z.of_nat k).
  { apply wrap64_inj_small.
    - unfold add64 in Hend. rewrite <- Hend. symmetry. apply wrap64_id.
      unfold in_int64, int64_min, int64_max in *. lia.
    - unfold in_int64, int64_min, int64_max in *. lia. }
  split_and!; [done|lia|done|]. rewrite Hsize', Hoff. lia.
Qed.

(** The loop over the entries of a blob. *)
Lemma paranoia_loop_Ok outer rows : ∀ t l t',
  Z.of_nat (length outer) <= int64_max → tee_inv outer t →
  Forall entry_int64 rows →
  foldM paranoia_entry rows t = (l, Ok t') →
  contiguous (Size (hasherPostEnc t)) rows ∧
  tee_inv outer t' ∧
  Size (hasherPostEnc t') = Size (hasherPostEnc t) + total_final_size rows ∧
  entry_events l = e_hash <$> rows.
Proof.
  induction rows as [|row rows IH]; intros t l t' Hb Hinv H64 Hrun.
  - injection Hrun as <- <-. simpl. split_and!; [done|done|lia|done].
  - simpl in Hrun.
    apply bind_Ok_inv in Hrun as (l1 & t1 & l2 & Hrow & Hrest & ->).
    apply Forall_cons in H64 as [Hrow64 H64].
    pose proof Hrow as Hinv1.
    apply (paranoia_entry_exact outer) in Hinv1 as (Hoff & Hpos & Hinv1 & Hsize1);
      [|done..].
    apply paranoia_entry_Ok_inv in Hrow as (_ & _ & _ & _ & _ & _ & _ & _ & _ & ->).
    destruct (IH t1 l2 t' Hb Hinv1 H64 Hrest) as (Hcont & Hinv' & Hsize' & Hev).
    rewrite Hsize1 in Hcont, Hsize'. simpl. split_and!; try done.
    + lia.
    + by rewrite Hev.
Qed.



Lemma contiguous_lower_bound rows : ∀ start e,
  contiguous start rows → e ∈ rows → start <= e_offset e.
Proof.
  induction rows as [|row rows IH]; intros start e Hc He.
  - by apply elem_of_nil in He.
  - destruct Hc as (Hoff & Hpos & Hc).
    apply elem_of_cons in He as [->|He]; [lia|].
    specialize (IH _ _ Hc He). lia.
Qed.

(** Tiling entries do not overlap. *)
Lemma contiguous_no_overlap rows : ∀ start i j ei ej,
  contiguous start rows → rows !! i = Some ei → rows !! j = Some ej → (i < j)%nat →
  e_offset ei + e_final_size ei <= e_offset ej.
Proof.
  induction rows as [|row rows IH]; intros start i j ei ej Hc Hi Hj Hij; [done|].
  destruct Hc as (Hoff & Hpos & Hc). destruct j as [|j]; [lia|]. simpl in Hj.
  destruct i as [|i]; simpl in Hi.
  - injection Hi as ->. rewrite Hoff.
    apply (contiguous_lower_bound rows); [done|]. by eapply list_elem_of_lookup_2.
  - apply (IH _ i j ei ej Hc); [done..|lia].
Qed.

Lemma fresh_tee_inv outer : tee_inv outer (fresh_tee outer).
Proof. done. Qed.

(** A run of [BlobReaderParanoia] that does not panic. *)
Lemma BlobReaderParanoia_Ok_inv db outer blobID st l n :
  BlobReaderParanoia db outer blobID st = (l, Ok n) →
  ∃ b l1 t,
    length blobID = 32%nat ∧
    head (filter (λ b, b_blob_id b = blobID) (blobs db)) = Some b ∧
    foldM paranoia_entry (entries_query db blobID) (fresh_tee outer) = (l1, Ok t) ∧
    DecryptBlobEntry (unread t) (Size (hasherPostEnc t)) (b_padding_key b) =
      replicate (length (unread t)) 0 ∧
    Size (hasherPostEnc (tee_read (length (unread t)) t)) = b_size b ∧
    b_final_hash b = Hash (hasherPostEnc (tee_read (length (unread t)) t)) ∧
    n = b_size b ∧
    l = EvQuery (QBlob blobID) :: EvQuery (QEntries blobID) :: l1 ++ [EvVerified].
Proof.
  unfold BlobReaderParanoia.
  case_decide as Hlen; [discriminate|].
  destruct (filter _ (blobs db)) as [|b bs] eqn:Hb; simpl; [discriminate|].
  destruct (foldM _ _ _) as [l1 [t|e]] eqn:Hloop; simpl; [|discriminate].
  rewrite length_DecryptBlobEntry.
  case_decide as Hpad; simpl; [discriminate|].
  case_decide as Hsize; simpl; [discriminate|].
  case_decide as Hhash; simpl; [discriminate|].
  intros [= <- <-]. exists b, l1, t.
  split_and!; done.
Qed.


(** C2: a run of [BlobReaderParanoia] on a stream shorter than 2^63 bytes
    that does not panic has established that the bytes after the last
    entry decrypt to zeros under the padding key from the offset where the
    last entry ends, that the stream has the size recorded for the blob,
    which is the sum of the entries' sizes and the padding length, and
    that the digest of the stream is the recorded one; when any of these
    fails the run panics. *)
Theorem paranoia_checks_padding_size_digest db outer blobID st :
  Z.of_nat (length outer) <= int64_max →
  Forall entry_int64 (blob_entries db) →
  (∀ l n, BlobReaderParanoia db outer blobID st = (l, Ok n) →
     blob_verified db outer blobID) ∧
  (¬ blob_verified db outer blobID →
     ∃ e, outcome (BlobReaderParanoia db outer blobID st) = Panic e).
Proof.
  intros Hb H64.
  assert (Hok : ∀ l n, BlobReaderParanoia db outer blobID st = (l, Ok n) →
                       blob_verified db outer blobID).
  { intros l n Hrun.
    apply BlobReaderParanoia_Ok_inv in Hrun
      as (b & l1 & t & _ & Hhead & Hloop & Hpad & Hsize & Hhash & _ & _).
    apply (paranoia_loop_Ok outer) in Hloop as (_ & Hinv & Hused & _); [|done..|].
    2:{ rewrite Forall_forall in H64 |- *. intros e He.
        apply H64. by apply elem_of_entries_query in He as [? _]. }
    destruct (tee_read_inv outer (length (unread t)) t Hb Hinv) as [_ Hsize'].
    rewrite Nat.min_id, Hsize in Hsize'.
    unfold Hash in Hhash. unfold Size in *.
    destruct Hinv as [<- Hs]. destruct t as [u [sz hs]]. simpl in *. subst sz.
    rewrite take_ge in Hhash by done.
    assert (Hu : total_final_size (entries_query db blobID) = Z.of_nat (length hs))
      by lia.
    exists b. split; [done|]. cbv zeta.
    rewrite Hu, Nat2Z.id, drop_app_length, length_app.
    split_and!; [lia|lia|done|lia|lia|done]. }
  split; [done|]. intros Hnot.
  destruct (BlobReaderParanoia db outer blobID st) as [l [n|e]] eqn:Hrun; simpl; [|eauto].
  destruct Hnot. by eapply Hok.
Qed.

(** C3: every pass of the entry loop either finds the count of encrypted
    bytes read so far equal to the entry's offset before draining it and
    equal to offset + final_size (in [int64]) after, or panics; a
    misaligned entry panics before anything is read, and one that drained
    to another count panics right after.  Hence, for a stream shorter than
    2^63 bytes, the entries of a blob whose verification returns tile the
    bytes from offset 0 on, in the order they are processed, without
    overlap. *)
Theorem paranoia_entries_aligned :
  (∀ row t,
     (∃ l t', paranoia_entry row t = (l, Ok t') ∧
        Size (hasherPostEnc t) = e_offset row ∧
        Size (hasherPostEnc t') = add64 (e_offset row) (e_final_size row)) ∨
     (∃ l e, paranoia_entry row t = (l, Panic e))) ∧
  (∀ row t alg,
     e_compression_alg row = Some alg →
     Size (hasherPostEnc t) ≠ e_offset row →
     paranoia_entry row t =
       ([], Panic (PanicMsg "got misaligned somehow. gap between entries??"))) ∧
  (∀ row t alg out consumed,
     e_compression_alg row = Some alg →
     Size (hasherPostEnc t) = e_offset row →
     let limited := take (Z.to_nat (e_final_size row)) (unread t) in
     Decompress alg (DecryptBlobEntry limited (e_offset row) (e_encryption_key row))
       = Decoded out consumed →
     Size (hasherPostEnc (tee_read (consumed `min` length limited) t))
       ≠ add64 (e_offset row) (e_final_size row) →
     paranoia_entry row t =
       ([EvEntry (e_hash row)], Panic (PanicMsg "entry was wrong size"))) ∧
  (∀ db outer blobID st l n,
     Z.of_nat (length outer) <= int64_max →
     Forall entry_int64 (blob_entries db) →
     BlobReaderParanoia db outer blobID st = (l, Ok n) →
     let rows := entries_query db blobID in
     contiguous 0 rows ∧
     ∀ i j ei ej, rows !! i = Some ei → rows !! j = Some ej → (i < j)%nat →
       e_offset ei + e_final_size ei <= e_offset ej).
Proof.
  split_and!.
  - intros row t. destruct (paranoia_entry row t) as [l [t'|e]] eqn:Hrun; [|eauto].
    left. exists l, t'. split; [done|].
    apply paranoia_entry_Ok_inv in Hrun
      as (alg & out & consumed & _ & Hoff & _ & _ & Hend & _ & _).
    done.
  - intros row t alg Halg Hoff. unfold paranoia_entry. rewrite Halg. simpl.
    by rewrite decide_True.
  - intros row t alg out consumed Halg Hoff limited Hdec Hend.
    unfold paranoia_entry. rewrite Halg. simpl.
    rewrite decide_False by (by intros ?).
    fold limited. simpl. rewrite Hdec. simpl. by rewrite decide_True.
  - intros db outer blobID st l n Hb H64 Hrun rows.
    apply BlobReaderParanoia_Ok_inv in Hrun
      as (b & l1 & t & _ & _ & Hloop & _).
    apply (paranoia_loop_Ok outer) in Hloop as (Hcont & _); [|done..|].
    2:{ rewrite Forall_forall in H64 |- *. intros e He.
        apply H64. by apply elem_of_entries_query in He as [? _]. }
    split; [done|]. intros i j ei ej. by apply (contiguous_no_overlap rows 0).
Qed.

End Paranoia.

(** ** Retrieval against verification *)

Section CatParanoia.
Context `{Registry, Cipher, Compression, Digest}.

(** Retrieval decrypts with the key of the blob row
    ([blobs.encryption_key]), verification with the key of the entry row
    ([blob_entries.encryption_key]).  On a row where the two columns hold
    the same key, the two paths make the same plaintext of the same stored
    bytes: what [CatReadCloser] returns for the hash is what the pass of
    [BlobReaderParanoia] over that entry decompressed and found to have
    that hash.  Nothing in the two functions makes the columns agree. *)
Theorem cat_agrees_with_paranoia db hash r rest st t l t' :
  cat_query db hash = r :: rest →
  b_encryption_key (j_blob r) = e_encryption_key (j_entry r) →
  length (s_storage_id (j_storage r)) = 32%nat →
  StorageDataToStorage (descriptor r) = Ok st →
  DownloadSection st (p_path (j_placement r)) (e_offset (j_entry r))
                  (e_final_size (j_entry r))
    = Ok (take (Z.to_nat (e_final_size (j_entry r))) (unread t)) →
  paranoia_entry (j_entry r) t = (l, Ok t') →
  ∃ alg out consumed,
    e_compression_alg (j_entry r) = Some alg ∧
    Decompress alg
      (DecryptBlobEntry (take (Z.to_nat (e_final_size (j_entry r))) (unread t))
                        (e_offset (j_entry r)) (e_encryption_key (j_entry r)))
      = Decoded out consumed ∧
    outcome (CatReadCloser hash db) = Ok (Decoded out consumed) ∧
    sha256 out = hash.
Proof.
  intros Hq Hkey Hlen Hst Hdl Hrun.
  apply paranoia_entry_Ok_inv in Hrun
    as (alg & out & consumed & Halg & _ & Hdec & _ & _ & Hhash & _).
  exists alg, out, consumed. split_and!; [done|done| |].
  - rewrite (CatReadCloser_row _ _ _ _ _ _ Hq Halg Hlen Hst), Hdl, Hkey. simpl.
    by rewrite Hdec.
  - assert (Hr : r ∈ cat_join db hash).
    { rewrite <- cat_query_Permutation, Hq. left. }
    apply elem_of_cat_join in Hr as (_ & _ & _ & _ & <- & _). done.
Qed.
End CatParanoia.

(** ** The command line *)

Lemma bind_assoc {A B C} (m : M A) (f : A → M B) (g : B → M C) :
  (m ≫= f) ≫= g = m ≫= (λ a, f a ≫= g).
Proof.
  destruct m as [l1 [a|e]]; simpl; [|done].
  destruct (f a) as [l2 [b|e]]; simpl; [|done].
  destruct (g b) as [l3 r]. by rewrite app_assoc.
Qed.

Lemma bind_ext {A B} (m : M A) (f g : A → M B) :
  (∀ a, f a = g a) → m ≫= f = m ≫= g.
Proof. intros Hfg. destruct m as [l [a|e]]; simpl; [|done]. by rewrite Hfg. Qed.

Lemma foldM_cons {A S} (body : A → S → M S) a l s :
  foldM body (a :: l) s = body a s ≫= foldM body l.
Proof. done. Qed.


Lemma fromHexChar_range c v : fromHexChar c = Some v → 0 <= v < 16.
Proof. unfold fromHexChar. repeat case_decide; intros [= <-]; lia. Qed.





Section BlobParanoia.
Context `{Registry, Cipher, Compression, Digest}.

Lemma BlobParanoia_line_blank db storage sz :
  BlobParanoia_line db storage "" sz = mret sz.
Proof. unfold BlobParanoia_line. by rewrite decide_True. Qed.


Lemma BlobParanoia_line_decode db storage line sz :
  String.length line = 64%nat →
  BlobParanoia_line db storage line sz =
    match DecodeString line with
    | None => ([EvLine line], Panic ErrHex)
    | Some blobID =>
        _ ← emit (EvLine line);
        reader ← DownloadEntireBlob db blobID storage;
        n ← BlobReaderParanoia db reader blobID storage;
        mret (add64 sz n)
    end.
Proof.
  intros Hlen. unfold BlobParanoia_line.
  assert (Hline : line ≠ "") by (by intros ->).
  rewrite decide_False by done. rewrite decide_False by (by intros ?).
  by destruct (DecodeString line).
Qed.

End BlobParanoia.

(** ** The stream wrappers *)

Section Wrappers.
Implicit Types (h : gmap loc object) (v w rc r : iface).

Lemma fresh_unused h : h !! fresh (dom h) = None.
Proof. apply not_elem_of_dom, is_fresh. Qed.

Lemma alloc_lookup o h : ∀ w h1, alloc o h = (w, h1) →
  ∃ l, w = Ptr l ∧ h !! l = None ∧ h1 = <[l := o]> h.
Proof. unfold alloc. intros w h1 [= <- <-]. eauto using fresh_unused. Qed.

(** C10, as the code has it: for a ReadCloser that is not itself a
    [fakeReadCloser], [ReaderToReadCloser] of its [ReadCloserToReader] is
    the ReadCloser itself, as long as the wrapper has not been read; for a
    Reader that is neither a ReadCloser nor an unread [fakeReader],
    [ReadCloserToReader] of its [ReaderToReadCloser] is the Reader itself.
    In every case the result is the argument, the stream the argument
    reads from, or a new wrapper that reads from the argument. *)
Theorem wrappers_round_trip h :
  (∀ rc, is_ReadCloser h rc = true → as_fakeReadCloser h rc = None →
     ∀ w h1, ReadCloserToReader rc h = (w, h1) →
       ReaderToReadCloser w h1 = (rc, h1)) ∧
  (∀ r, is_ReadCloser h r = false → (∀ rc, as_fakeReader h r ≠ Some (rc, None)) →
     ∀ w h1, ReaderToReadCloser r h = (w, h1) →
       ReadCloserToReader w h1 = (r, h1)) ∧
  (∀ rc l h1, as_fakeReadCloser h rc = None →
     ReadCloserToReader rc h = (Ptr l, h1) →
     let h2 := fakeReader_Read l h1 in
     ReaderToReadCloser (Ptr l) h2 =
       (Ptr (fresh (dom h2)), <[fresh (dom h2) := fakeReadCloser (Ptr l)]> h2)) ∧
  (∀ v w h1, ReadCloserToReader v h = (w, h1) →
     w = reads_from h v ∨ reads_from h1 w = v) ∧
  (∀ v w h1, ReaderToReadCloser v h = (w, h1) →
     w = v ∨ w = reads_from h v ∨ reads_from h1 w = v).
Proof.
  split_and!.
  - intros rc _ Hnone w h1. unfold ReadCloserToReader. rewrite Hnone.
    intros (l & -> & _ & ->)%alloc_lookup.
    unfold ReaderToReadCloser, as_fakeReader. by rewrite lookup_insert_eq.
  - intros r Hrc Hfr w h1. unfold ReaderToReadCloser. rewrite Hrc.
    destruct (as_fakeReader h r) as [[rc [p|]]|] eqn:Has; [| by destruct (Hfr rc) |].
    all: intros (l & -> & _ & ->)%alloc_lookup.
    all: unfold ReadCloserToReader, as_fakeReadCloser; by rewrite lookup_insert_eq.
  - intros rc l h1 Hnone. unfold ReadCloserToReader. rewrite Hnone.
    intros (l' & [= <-] & _ & ->)%alloc_lookup. cbv zeta.
    unfold fakeReader_Read. rewrite lookup_insert_eq, insert_insert_eq.
    unfold ReaderToReadCloser, as_fakeReader, is_ReadCloser.
    by rewrite lookup_insert_eq.
  - intros v w h1. unfold ReadCloserToReader.
    destruct (as_fakeReadCloser h v) as [r|] eqn:Has.
    + intros [= <- <-]. left. unfold as_fakeReadCloser, reads_from in *.
      destruct v as [|l]; [done|]. destruct (h !! l) as [[|]|]; congruence.
    + intros (l & -> & _ & ->)%alloc_lookup. right.
      unfold reads_from. by rewrite lookup_insert_eq.
  - intros v w h1. unfold ReaderToReadCloser.
    destruct (as_fakeReader h v) as [[rc [p|]]|] eqn:Has.
    2:{ intros [= <- <-]. right. left. unfold as_fakeReader, reads_from in *.
        destruct v as [|l]; [done|]. destruct (h !! l) as [[|]|]; congruence. }
    all: destruct (is_ReadCloser h v); [intros [= <- <-]; by left|].
    all: intros (l & -> & _ & ->)%alloc_lookup; right; right.
    all: unfold reads_from; by rewrite lookup_insert_eq.
Qed.
End Wrappers.

(** ** Runs on the example store *)

Section Examples.
Local Existing Instances example_registry example_cipher example_compression
  example_digest.

Lemma example_store_int64 key : Forall entry_int64 (blob_entries (example_store key)).
Proof. repeat constructor; by vm_compute. Defined.


(** The example blob passes verification. *)
Lemma paranoia_example_verified : blob_verified example_db example_blob example_blob_id.
Proof.
  eapply (proj1 (paranoia_checks_padding_size_digest
                   example_db example_blob example_blob_id storage_aa _ _)).
  vm_compute. reflexivity.
  Unshelve.
  - by vm_compute.
  - apply example_store_int64.
Defined.


(** On the example store both paths use the key [example_key]. *)
Lemma cat_agrees_with_paranoia_example :
  ∃ alg out consumed,
    e_compression_alg (entry_hello example_key) = Some alg ∧
    Decompress alg
      (DecryptBlobEntry (take 5 example_blob) 0 example_key) = Decoded out consumed ∧
    outcome (CatReadCloser hello example_db) = Ok (Decoded out consumed) ∧
    sha256 out = hello.
Proof.
  eapply (cat_agrees_with_paranoia example_db hello (row_aa example_key)
            [row_bb example_key] storage_aa (fresh_tee example_blob)).
  - vm_compute. reflexivity.
  - reflexivity.
  - reflexivity.
  - reflexivity.
  - reflexivity.
  - vm_compute. reflexivity.
Defined.

(** A hash that is in no row of [blob_entries]. *)
Lemma cat_miss_panics_example :
  CatReadCloser [0] example_db = ([EvQuery (QCat [0])], Panic ErrNoRows).
Proof.
  apply cat_miss_panics.
  intros e b p s He _ _ _ Hhash _ _ _.
  apply elem_of_cons in He as [->|He]; [discriminate|].
  apply elem_of_cons in He as [->|He]; [discriminate|].
  by apply elem_of_nil in He.
Defined.

(** C7 as stated does not hold: on a miss the run does not return to its
    caller, with an error value or otherwise; it panics. *)
Lemma cat_miss_does_not_return :
  (∀ e, e ∈ blob_entries example_db → e_hash e ≠ [0]) ∧
  outcome (CatReadCloser [0] example_db) = Panic ErrNoRows ∧
  ¬ ∃ v, outcome (CatReadCloser [0] example_db) = Ok v.
Proof.
  split_and!.
  - intros e He.
    apply elem_of_cons in He as [->|He]; [discriminate|].
    apply elem_of_cons in He as [->|He]; [discriminate|].
    by apply elem_of_nil in He.
  - reflexivity.
  - intros [v Hv]. vm_compute in Hv. discriminate.
Qed.


(** C10 as stated does not hold: the ReadCloser that [ReaderToReadCloser]
    makes of a plain Reader does not come back from the round trip; the
    result is a new wrapper at another address. *)
Lemma wrappers_round_trip_counterexample :
  let h := {[ 0%nat := fakeReadCloser (Foreign 0 false) ]} : gmap loc object in
  ReaderToReadCloser (Foreign 0 false) ∅ = (Ptr 0%nat, h) ∧
  is_ReadCloser h (Ptr 0%nat) = true ∧
  ReadCloserToReader (Ptr 0%nat) h = (Foreign 0 false, h) ∧
  (ReaderToReadCloser (Foreign 0 false) h).1 = Ptr 1%nat ∧
  (ReaderToReadCloser (ReadCloserToReader (Ptr 0%nat) h).1
                      (ReadCloserToReader (Ptr 0%nat) h).2).1 ≠ Ptr 0%nat.
Proof. split_and!; by vm_compute. Qed.
(** The entries of the example blob tile it from offset 0. *)
Lemma paranoia_example_contiguous :
  contiguous 0 (entries_query example_db example_blob_id).
Proof.
  destruct paranoia_entries_aligned as (_ & _ & _ & Hblob).
  eapply (Hblob example_db example_blob example_blob_id storage_aa).
  - by vm_compute.
  - apply example_store_int64.
  - vm_compute. reflexivity.
Defined.



Lemma FormatHTTPRange_example :
  FormatHTTPRange 100 50 = "bytes=" +:+ FormatInt 100 +:+ "-" +:+ FormatInt (100 + 50 - 1).
Proof.
  apply (FormatHTTPRange_inclusive 100 50). by vm_compute.
Defined.

(** A foreign ReadCloser comes back from the round trip. *)
Lemma wrappers_round_trip_example :
  ReaderToReadCloser (Ptr 0%nat) {[ 0%nat := fakeReader (Foreign 7 true) None ]}
    = (Foreign 7 true, {[ 0%nat := fakeReader (Foreign 7 true) None ]}).
Proof.
  destruct (wrappers_round_trip ∅) as (Hrc & _).
  apply (Hrc (Foreign 7 true)); reflexivity.
Defined.
End Examples.


(** ** The directory walker *)

Section Gitignore.

Global Instance name_le_trans : Transitive name_le.
Proof. intros x y z. unfold name_le. apply transitivity. Qed.

Lemma Search_loop_step (f : nat → bool) (i j : nat) :
  Search_loop f i j =
    if decide (i < j)%nat then
      if f ((i + j) / 2)%nat then Search_loop f i ((i + j) / 2)%nat
      else Search_loop f ((i + j) / 2 + 1)%nat j
    else i.
Proof.
  funelim (Search_loop f i j);
    repeat match goal with
           | E : decide _ = _ |- _ => rewrite E; clear E
           | E : f _ = _ |- _ => rewrite E; clear E
           end; done.
Qed.

(** The loop of [sort.Search] narrows [[i, j]] around the first index at
    which a monotone predicate holds. *)
Lemma Search_loop_spec (n : nat) (f : nat → bool) :
  (∀ a b, (a ≤ b)%nat → (b < n)%nat → f a = true → f b = true) →
  ∀ d i j, (j - i ≤ d)%nat →
  (i ≤ j)%nat → (j ≤ n)%nat →
  (∀ k, (k < i)%nat → f k = false) →
  (∀ k, (j ≤ k)%nat → (k < n)%nat → f k = true) →
  (i ≤ Search_loop f i j ≤ j)%nat ∧
  (∀ k, (k < Search_loop f i j)%nat → f k = false) ∧
  (∀ k, (Search_loop f i j ≤ k)%nat → (k < n)%nat → f k = true).
Proof.
  intros Hmono d. induction d as [|d IH]; intros i j Hd Hij Hjn Hlow Hhigh;
    rewrite Search_loop_step; case_decide as Hlt; try lia.
  1,3: assert (i = j) as -> by lia; split_and!; [lia|lia|done|done].
  assert (Hh : (i ≤ (i + j) / 2 < j)%nat).
  { pose proof (Nat.div_mod_eq (i + j) 2).
    pose proof (Nat.mod_upper_bound (i + j) 2). lia. }
  destruct (f ((i + j) / 2)%nat) eqn:Hfh.
  - destruct (IH i ((i + j) / 2)%nat) as (Hr & Hlow' & Hhigh'); [lia|lia|lia|done| |].
    { intros k Hk Hkn. apply (Hmono ((i + j) / 2)%nat); [lia|done|done]. }
    split_and!; [lia|lia|done|done].
  - destruct (IH ((i + j) / 2 + 1)%nat j) as (Hr & Hlow' & Hhigh'); [lia|lia|lia| |done|].
    { intros k Hk. destruct (f k) eqn:Hfk; [|done].
      rewrite <- Hfh. symmetry. apply (Hmono k); [lia|lia|done]. }
    split_and!; [lia|lia|done|done].
Qed.

Lemma StronglySorted_lookup_le {A} (R : relation A) `{!Reflexive R} l : ∀ a b x y,
  StronglySorted R l → l !! a = Some x → l !! b = Some y → (a ≤ b)%nat → R x y.
Proof.
  induction l as [|z l IH]; intros a b x y Hs Ha Hb Hab; [done|].
  apply StronglySorted_cons in Hs as [Hall Hs].
  destruct b as [|b]; [assert (a = 0)%nat as -> by lia; simpl in *; by simplify_eq|].
  destruct a as [|a]; simpl in *.
  - simplify_eq. rewrite Forall_forall in Hall. apply Hall.
    by eapply list_elem_of_lookup_2.
  - apply (IH a b); [done..|lia].
Qed.

Global Instance name_le_refl : Reflexive name_le.
Proof. intros x. unfold name_le. reflexivity. Qed.

(** X1: on a directory listing sorted by name, as [os.ReadDir] returns it,
    [findGitignore] returns -1 exactly when no entry is named
    [.gitignore], and otherwise the index of the first entry of that
    name. *)
Theorem findGitignore_sorted (ls : list DirEntry) :
  Sorted name_le ls →
  (findGitignore ls = -1 ↔ ¬ ∃ e, e ∈ ls ∧ Name e = ".gitignore") ∧
  (∀ i, findGitignore ls = Z.of_nat i →
     (∃ e, ls !! i = Some e ∧ Name e = ".gitignore") ∧
     ∀ k e, (k < i)%nat → ls !! k = Some e → Name e ≠ ".gitignore").
Proof.
  intros Hsorted%Sorted_StronglySorted; [|apply _].
  set (f := at_or_after_gitignore ls). set (n := length ls).
  assert (Hmono : ∀ a b, (a ≤ b)%nat → (b < n)%nat → f a = true → f b = true).
  { intros a b Hab Hb. unfold f, at_or_after_gitignore.
    destruct (ls !! a) as [ea|] eqn:Ha; [|done].
    destruct (lookup_lt_is_Some_2 ls b Hb) as [eb Hbe]. rewrite Hbe.
    intros Hle%bool_decide_eq_true. apply bool_decide_eq_true.
    etrans; [exact Hle|]. by apply (StronglySorted_lookup_le name_le ls a b). }
  destruct (Search_loop_spec n f Hmono n 0%nat n) as (Hr & Hlow & Hhigh);
    [lia|lia|lia|lia|lia|].
  fold (Search n f) in Hr, Hlow, Hhigh.
  assert (Hfound : ∀ m e, ls !! m = Some e → Name e = ".gitignore" →
            ∃ er, ls !! Search n f = Some er ∧ Name er = ".gitignore").
  { intros m e Hm Hname.
    assert (Hfm : f m = true).
    { unfold f, at_or_after_gitignore. rewrite Hm, Hname.
      by apply bool_decide_eq_true. }
    assert (Hrm : (Search n f ≤ m)%nat).
    { destruct (le_lt_dec (Search n f) m) as [|Hlt]; [done|].
      specialize (Hlow m Hlt). congruence. }
    assert (Hmn : (m < n)%nat) by (by eapply lookup_lt_Some).
    destruct (lookup_lt_is_Some_2 ls (Search n f)) as [er Her]; [unfold n in *; lia|].
    exists er. split; [done|].
    assert (Hfr : f (Search n f) = true) by (apply Hhigh; lia).
    unfold f at 1, at_or_after_gitignore in Hfr. rewrite Her in Hfr.
    apply bool_decide_eq_true in Hfr.
    apply (anti_symm String.le); [|done]. rewrite <- Hname.
    by apply (StronglySorted_lookup_le name_le ls (Search n f) m). }
  unfold findGitignore. fold n f. split.
  - split.
    + intros Hminus (e & [m Hm]%list_elem_of_lookup_1 & Hname).
      destruct (Hfound m e Hm Hname) as (er & Her & Hername).
      rewrite Her, decide_True in Hminus by done. lia.
    + intros Hnone. destruct (ls !! Search n f) as [er|] eqn:Her; [|done].
      case_decide as Hname; [|done]. destruct Hnone. exists er. split; [|done].
      by eapply list_elem_of_lookup_2.
  - intros i. destruct (ls !! Search n f) as [er|] eqn:Her; [|lia].
    case_decide as Hname; [|lia]. intros <-%Nat2Z.inj. split; [eauto|].
    intros k e Hk Hke Hkname. specialize (Hlow k Hk).
    unfold f, at_or_after_gitignore in Hlow. rewrite Hke, Hkname in Hlow.
    apply bool_decide_eq_false in Hlow. by destruct Hlow.
Qed.

End Gitignore.

(** ** The hasher *)

Section HasherSizerFacts.
Context `{Digest}.

(** X2: writing to a [HasherSizer] in two pieces is writing the two pieces
    at once: the counter and the digest do not depend on how the bytes are
    cut into chunks. *)
Theorem Write_chunks (hs : HasherSizer) (p q : bytes) :
  Write (Write hs p) q = Write hs (p ++ q).
Proof.
  unfold Write. simpl. f_equal.
  - unfold add64. rewrite wrap64_idem_add, length_app. f_equal. lia.
  - by rewrite app_assoc.
Qed.

Lemma Write_all_hasher (chunks : list bytes) : ∀ hs,
  hasher (foldl Write hs chunks) = hasher hs ++ mjoin chunks.
Proof.
  induction chunks as [|p chunks IH]; intros hs; simpl.
  - by rewrite app_nil_r.
  - by rewrite IH, app_assoc.
Qed.

(** X3: after any sequence of writes to a new hasher, [HashAndSize] gives
    the digest of the bytes written, in order, and their number reduced to
    [int64]; the number itself as long as fewer than 2^63 bytes were
    written. *)
Theorem HashAndSize_counts (chunks : list bytes) :
  let hs := foldl Write NewSHA256HasherSizer chunks in
  HashAndSize hs = (sha256 (mjoin chunks), wrap64 (Z.of_nat (length (mjoin chunks)))) ∧
  (Z.of_nat (length (mjoin chunks)) <= int64_max →
   Size hs = Z.of_nat (length (mjoin chunks))).
Proof.
  assert (Hgen : ∀ hs, size hs = wrap64 (Z.of_nat (length (hasher hs))) →
            size (foldl Write hs chunks) =
              wrap64 (Z.of_nat (length (hasher hs ++ mjoin chunks)))).
  { induction chunks as [|p chunks IH]; intros hs Hhs; simpl.
    - by rewrite app_nil_r.
    - rewrite IH.
      + simpl. by rewrite app_assoc.
      + simpl. unfold add64. rewrite Hhs, wrap64_idem_add, length_app.
        f_equal. lia. }
  intros hs. assert (Hsize : Size hs = wrap64 (Z.of_nat (length (mjoin chunks)))).
  { unfold Size, hs. by rewrite Hgen. }
  split.
  - unfold HashAndSize, Hash. rewrite Hsize. unfold hs.
    by rewrite Write_all_hasher.
  - intros Hle. rewrite Hsize. apply wrap64_id.
    unfold in_int64, int64_min, int64_max in *. lia.
Qed.
End HasherSizerFacts.

(** ** Retrieval and the rest of the store *)

Section CatFrame.
Context `{Registry, Cipher, Compression}.

Lemma cat_join_of_hash db hash :
  cat_join db hash =
    e ← filter (λ e, e_hash e = hash) (blob_entries db);
    b ← filter (λ b, b_blob_id b = e_blob_id e) (blobs db);
    p ← filter (λ p, p_blob_id p = b_blob_id b) (blob_storage db);
    s ← filter (λ s, s_storage_id s = p_storage_id p) (storage db);
    [(e, b, p, s)].
Proof.
  unfold cat_join. induction (blob_entries db) as [|e es IH]; [done|].
  rewrite bind_cons, IH, filter_cons. clear IH.
  destruct (decide (e_hash e = hash)) as [Hh|Hh].
  - by rewrite bind_cons.
  - match goal with |- ?inner ++ ?rest = _ => transitivity ([] ++ rest); [|done] end.
    f_equal.
    induction (filter _ (blobs db)) as [|b bs IHb]; [done|].
    rewrite bind_cons, IHb, app_nil_r.
    induction (filter _ (blob_storage db)) as [|p ps IHp]; [done|].
    rewrite bind_cons, IHp, app_nil_r.
    by induction (filter _ (storage db)) as [|s ss IHs].
Qed.

(** X4: what [CatReadCloser] does for a hash depends on the rows of
    [blob_entries] of that hash and on the tables [blobs], [blob_storage] and
    [storage] only: the entries of other hashes and the table [hashes] do
    not change the run. *)
Theorem cat_ignores_other_hashes db db' hash :
  filter (λ e, e_hash e = hash) (blob_entries db') =
    filter (λ e, e_hash e = hash) (blob_entries db) →
  blobs db' = blobs db → blob_storage db' = blob_storage db →
  storage db' = storage db →
  CatReadCloser hash db' = CatReadCloser hash db.
Proof.
  intros He Hb Hp Hs. unfold CatReadCloser, cat_query.
  by rewrite !cat_join_of_hash, He, Hb, Hp, Hs.
Qed.

(** X13: [CatReadCloser] asks a backend for bytes at most once, and then for
    the range of the selected row at its path; a selected row whose
    [compression_alg] is NULL, whose storage id has not 32 bytes, or whose
    storage does not resolve makes it panic before any download. *)
Theorem cat_downloads_at_most_once db hash :
  (events (CatReadCloser hash db) = [EvQuery (QCat hash)] ∨
   ∃ r rest st,
     cat_query db hash = r :: rest ∧
     StorageDataToStorage (descriptor r) = Ok st ∧
     events (CatReadCloser hash db) =
       [EvQuery (QCat hash);
        EvDownload (GetID st) (p_path (j_placement r)) (e_offset (j_entry r))
                   (e_final_size (j_entry r))]) ∧
  (∀ r rest, cat_query db hash = r :: rest →
     (e_compression_alg (j_entry r) = None →
        CatReadCloser hash db = ([EvQuery (QCat hash)], Panic ErrScan)) ∧
     (∀ alg, e_compression_alg (j_entry r) = Some alg →
        length (s_storage_id (j_storage r)) ≠ 32%nat →
        CatReadCloser hash db =
          ([EvQuery (QCat hash)], Panic (PanicMsg "database gave invalid row??"))) ∧
     (∀ alg e, e_compression_alg (j_entry r) = Some alg →
        length (s_storage_id (j_storage r)) = 32%nat →
        StorageDataToStorage (descriptor r) = Panic e →
        CatReadCloser hash db = ([EvQuery (QCat hash)], Panic e))).
Proof.
  assert (Hbad : ∀ r rest, cat_query db hash = r :: rest →
     (e_compression_alg (j_entry r) = None →
        CatReadCloser hash db = ([EvQuery (QCat hash)], Panic ErrScan)) ∧
     (∀ alg, e_compression_alg (j_entry r) = Some alg →
        length (s_storage_id (j_storage r)) ≠ 32%nat →
        CatReadCloser hash db =
          ([EvQuery (QCat hash)], Panic (PanicMsg "database gave invalid row??"))) ∧
     (∀ alg e, e_compression_alg (j_entry r) = Some alg →
        length (s_storage_id (j_storage r)) = 32%nat →
        StorageDataToStorage (descriptor r) = Panic e →
        CatReadCloser hash db = ([EvQuery (QCat hash)], Panic e))).
  { intros r rest Hq. unfold CatReadCloser, SliceToArr. rewrite Hq.
    split_and!.
    - intros Halg. simpl. by rewrite Halg.
    - intros alg Halg Hlen. simpl. rewrite Halg. simpl.
      by rewrite decide_False by done.
    - intros alg e Halg Hlen Hst. simpl. rewrite Halg. simpl.
      rewrite decide_True by done. simpl. fold (descriptor r). by rewrite Hst. }
  split; [|exact Hbad].
  destruct (cat_query db hash) as [|r rest] eqn:Hq.
  { left. unfold CatReadCloser. by rewrite Hq. }
  destruct (Hbad r rest eq_refl) as (Hnull & Hlen & Hst).
  destruct (e_compression_alg (j_entry r)) as [alg|] eqn:Halg.
  2:{ left. by rewrite Hnull. }
  destruct (decide (length (s_storage_id (j_storage r)) = 32%nat)) as [H32|H32].
  2:{ left. by rewrite (Hlen alg). }
  destruct (StorageDataToStorage (descriptor r)) as [st|e] eqn:Hres.
  2:{ left. by rewrite (Hst alg e). }
  right. exists r, rest, st. split_and!; [done..|].
  by rewrite (CatReadCloser_row hash db r rest alg st).
Qed.
End CatFrame.

(** ** Downloading a whole blob *)

Section Download.

(** X5: [DownloadEntireBlob] asks the backend for nothing but the whole
    blob, from offset 0 and of the recorded size, at a path recorded for
    this blob on this storage; for a blob with no placement on the storage
    it panics with the no-rows error without any download. *)
Theorem DownloadEntireBlob_downloads_recorded db blobID st :
  (∀ sid path off len,
     EvDownload sid path off len ∈ events (DownloadEntireBlob db blobID st) →
     sid = GetID st ∧ off = 0 ∧
     ∃ b p, b ∈ blobs db ∧ b_blob_id b = blobID ∧ len = b_size b ∧
       p ∈ blob_storage db ∧ p_blob_id p = blobID ∧
       p_storage_id p = GetID st ∧ path = p_path p) ∧
  ((∀ p, p ∈ blob_storage db → p_blob_id p = blobID → p_storage_id p ≠ GetID st) →
   outcome (DownloadEntireBlob db blobID st) = Panic ErrNoRows ∧
   ∀ sid path off len,
     EvDownload sid path off len ∉ events (DownloadEntireBlob db blobID st)).
Proof.
  unfold DownloadEntireBlob, download. split.
  - intros sid path off len.
    destruct (filter _ (blobs db)) as [|b bs] eqn:Hb; simpl.
    { intros Hin. by repeat (apply elem_of_cons in Hin as [?|Hin]; [done|]);
        apply elem_of_nil in Hin. }
    destruct (filter _ (blob_storage db)) as [|p ps] eqn:Hp; simpl.
    { intros Hin. by repeat (apply elem_of_cons in Hin as [?|Hin]; [done|]);
        apply elem_of_nil in Hin. }
    assert (Hbin : b ∈ filter (λ b, b_blob_id b = blobID) (blobs db))
      by (rewrite Hb; left).
    assert (Hpin : p ∈ filter (λ p, p_blob_id p = blobID ∧ p_storage_id p = GetID st)
                              (blob_storage db)) by (rewrite Hp; left).
    apply list_elem_of_filter in Hbin as [Hbid Hbin].
    apply list_elem_of_filter in Hpin as [[Hpid Hpsid] Hpin].
    destruct (DownloadSection st (p_path p) 0 (b_size b)) as [reader|e]; simpl.
    all: intros Hin; repeat (apply elem_of_cons in Hin as [Heq|Hin]; [try done|]).
    all: try by apply elem_of_nil in Hin.
    all: injection Heq as -> -> -> ->; split_and!; try done; exists b, p; done.
  - intros Hnone.
    assert (Hp : filter (λ p, p_blob_id p = blobID ∧ p_storage_id p = GetID st)
                        (blob_storage db) = []).
    { apply elem_of_nil_inv. intros p [[Hpid Hpsid] Hpin]%list_elem_of_filter.
      by apply (Hnone p). }
    rewrite Hp. destruct (filter _ (blobs db)) as [|b bs]; simpl.
    all: split; [done|]; intros sid path off len Hin.
    all: repeat (apply elem_of_cons in Hin as [?|Hin]; [done|]).
    all: by apply elem_of_nil in Hin.
Qed.
End Download.

(** ** Verification accepts exactly the well-formed blobs *)

Section ParanoiaComplete.
Context `{Cipher, Compression, Digest}.

(** A pass over a well-formed entry returns, having read the entry. *)
Lemma paranoia_entry_complete outer row t alg out consumed :
  Z.of_nat (length outer) <= int64_max → tee_inv outer t →
  e_compression_alg row = Some alg →
  Size (hasherPostEnc t) = e_offset row →
  0 <= e_final_size row →
  (Z.to_nat (e_final_size row) ≤ length (unread t))%nat →
  Decompress alg
    (DecryptBlobEntry (take (Z.to_nat (e_final_size row)) (unread t))
                      (e_offset row) (e_encryption_key row)) = Decoded out consumed →
  (Z.to_nat (e_final_size row) ≤ consumed)%nat →
  e_hash row = sha256 out →
  paranoia_entry row t =
    ([EvEntry (e_hash row); EvHashEqual], Ok (tee_read (Z.to_nat (e_final_size row)) t)).
Proof.
  intros Hb Hinv Halg Hoff Hpos Hlen Hdec Hcons Hhash.
  destruct (tee_read_inv outer (Z.to_nat (e_final_size row)) t Hb Hinv) as [Hinv' Hsize'].
  rewrite Nat.min_l in Hsize' by done.
  assert (Hk : (consumed `min` length (take (Z.to_nat (e_final_size row)) (unread t))
                = Z.to_nat (e_final_size row))%nat) by (rewrite length_take; lia).
  assert (Hend : Size (hasherPostEnc (tee_read (Z.to_nat (e_final_size row)) t))
                 = add64 (e_offset row) (e_final_size row)).
  { rewrite Hsize', Hoff. unfold add64.
    rewrite Z2Nat.id by done. symmetry. apply wrap64_id.
    destruct Hinv as [Hout Hs]. unfold Size in Hoff. rewrite Hs in Hoff.
    rewrite <- Hout, length_app in Hb.
    unfold in_int64, int64_min, int64_max in *. lia. }
  unfold paranoia_entry. rewrite Halg. simpl scan_string. rewrite bind_ret.
  rewrite decide_False by (by intros ?). rewrite bind_emit. cbv zeta.
  rewrite Hdec, Hk. rewrite decide_False by (by intros ?).
  unfold HashAndSize. rewrite decide_False; [done|].
  intros Hne. by apply Hne.
Qed.

Lemma paranoia_loop_complete outer rows : ∀ t,
  Z.of_nat (length outer) <= int64_max → tee_inv outer t →
  entries_well_formed rows (Size (hasherPostEnc t)) (unread t) →
  ∃ l t', foldM paranoia_entry rows t = (l, Ok t') ∧
    tee_inv outer t' ∧
    Size (hasherPostEnc t') = Size (hasherPostEnc t) + total_final_size rows ∧
    unread t' = drop (Z.to_nat (total_final_size rows)) (unread t).
Proof.
  induction rows as [|row rows IH]; intros t Hb Hinv Hwf.
  - exists [], t. simpl. split_and!; [done|done|lia|done].
  - destruct Hwf as (Hoff & Hpos & Hlen & (alg & out & consumed & Halg & Hdec & Hcons & Hhash)
                     & Hrest).
    set (t1 := tee_read (Z.to_nat (e_final_size row)) t).
    assert (Hrow : paranoia_entry row t = ([EvEntry (e_hash row); EvHashEqual], Ok t1)).
    { rewrite <- Hoff in Hdec. by eapply (paranoia_entry_complete outer). }
    destruct (tee_read_inv outer (Z.to_nat (e_final_size row)) t Hb Hinv) as [Hinv1 Hsize1].
    rewrite Nat.min_l, Z2Nat.id in Hsize1 by done. fold t1 in Hinv1, Hsize1.
    destruct (IH t1 Hb Hinv1) as (l & t' & Hloop & Hinv' & Hsize' & Hunread').
    { rewrite Hsize1. exact Hrest. }
    exists ([EvEntry (e_hash row); EvHashEqual] ++ l), t'.
    rewrite foldM_cons, Hrow, bind_Ok, Hloop. simpl.
    assert (Htot : 0 <= total_final_size rows).
    { clear -Hrest. revert Hrest.
      generalize (Size (hasherPostEnc t) + e_final_size row).
      generalize (drop (Z.to_nat (e_final_size row)) (unread t)).
      induction rows as [|r rows IH]; intros d o Hwf; simpl; [done|].
      destruct Hwf as (_ & ? & _ & _ & Hrest). specialize (IH _ _ Hrest). lia. }
    split_and!; [done|done|lia|].
    rewrite Hunread'. unfold t1. simpl. rewrite drop_drop. f_equal. lia.
Qed.

(** The other way round: entries that passed the loop are well formed. *)
Lemma paranoia_loop_sound outer rows : ∀ t l t',
  Z.of_nat (length outer) <= int64_max → tee_inv outer t →
  Forall entry_int64 rows →
  foldM paranoia_entry rows t = (l, Ok t') →
  entries_well_formed rows (Size (hasherPostEnc t)) (unread t).
Proof.
  induction rows as [|row rows IH]; intros t l t' Hb Hinv H64 Hrun; [done|].
  rewrite foldM_cons in Hrun.
  apply bind_Ok_inv in Hrun as (l1 & t1 & l2 & Hrow & Hrest & ->).
  apply Forall_cons in H64 as [Hrow64 H64].
  pose proof Hrow as Hexact.
  apply (paranoia_entry_exact outer) in Hexact as (Hoff & Hpos & Hinv1 & Hsize1);
    [|done..].
  apply paranoia_entry_Ok_inv in Hrow
    as (alg & out & consumed & Halg & _ & Hdec & -> & _ & Hhash & _).
  destruct (tee_read_inv outer
              (consumed `min` length (take (Z.to_nat (e_final_size row)) (unread t)))
              t Hb Hinv) as [_ Hk].
  rewrite Hsize1, length_take in Hk.
  assert (Hn : (consumed `min` (Z.to_nat (e_final_size row) `min` length (unread t))
                = Z.to_nat (e_final_size row))%nat) by lia.
  simpl. split_and!; [done|done|lia| |].
  - exists alg, out, consumed. rewrite <- Hoff. split_and!; [done|done|lia|done].
  - specialize (IH _ _ _ Hb Hinv1 H64 Hrest).
    rewrite Hsize1, length_take, Hn in IH. exact IH.
Qed.

(** The end of [BlobReaderParanoia], after the loop over the entries. *)
Lemma BlobReaderParanoia_after_loop db outer blobID st b bs l1 t :
  length blobID = 32%nat →
  filter (λ b, b_blob_id b = blobID) (blobs db) = b :: bs →
  foldM paranoia_entry (entries_query db blobID) (fresh_tee outer) = (l1, Ok t) →
  DecryptBlobEntry (unread t) (Size (hasherPostEnc t)) (b_padding_key b) =
    replicate (length (unread t)) 0 →
  Size (hasherPostEnc (tee_read (length (unread t)) t)) = b_size b →
  b_final_hash b = Hash (hasherPostEnc (tee_read (length (unread t)) t)) →
  BlobReaderParanoia db outer blobID st =
    (EvQuery (QBlob blobID) :: EvQuery (QEntries blobID) :: l1 ++ [EvVerified],
     Ok (b_size b)).
Proof.
  intros Hlen Hbs Hloop Hpad Hsize Hhash. unfold BlobReaderParanoia.
  rewrite decide_False by (by intros ?). rewrite bind_emit, Hbs.
  simpl query_row. rewrite bind_ret. cbv zeta.
  rewrite bind_emit, Hloop, bind_Ok, length_DecryptBlobEntry.
  rewrite decide_False by (by intros ?).
  rewrite decide_False by (by intros ?).
  rewrite decide_False by (by intros ?).
  by rewrite bind_emit.
Qed.

(** X6: for a stream shorter than 2^63 bytes and 64-bit columns,
    [BlobReaderParanoia] returns exactly on the well-formed blobs: the id
    has 32 bytes, the entries lie head to tail from offset 0 and each
    decompresses, reading all its bytes, to content of its recorded digest,
    the rest of the stream is zero padding, and size and digest of the
    stream are the recorded ones.  It then returns the number of bytes of
    the stream. *)
Theorem BlobReaderParanoia_accepts_iff db outer blobID st :
  Z.of_nat (length outer) <= int64_max →
  Forall entry_int64 (blob_entries db) →
  ((∃ l n, BlobReaderParanoia db outer blobID st = (l, Ok n)) ↔
   length blobID = 32%nat ∧
   entries_well_formed (entries_query db blobID) 0 outer ∧
   blob_verified db outer blobID) ∧
  (∀ l n, BlobReaderParanoia db outer blobID st = (l, Ok n) →
     n = Z.of_nat (length outer)).
Proof.
  intros Hb H64.
  assert (H64q : Forall entry_int64 (entries_query db blobID)).
  { rewrite Forall_forall in H64 |- *. intros e He.
    apply H64. by apply elem_of_entries_query in He as [? _]. }
  assert (Hfresh : tee_inv outer (fresh_tee outer)) by done.
  assert (Hinv : ∀ l n, BlobReaderParanoia db outer blobID st = (l, Ok n) →
            length blobID = 32%nat ∧
            entries_well_formed (entries_query db blobID) 0 outer ∧
            blob_verified db outer blobID ∧ n = Z.of_nat (length outer)).
  { intros l n Hrun.
    apply BlobReaderParanoia_Ok_inv in Hrun
      as (b & l1 & t & Hlen & Hhead & Hloop & Hpad & Hsize & Hhash & -> & _).
    pose proof (paranoia_loop_sound outer _ _ _ _ Hb Hfresh H64q Hloop) as Hwf.
    apply (paranoia_loop_Ok outer) in Hloop as (_ & Hinv & Hused & _); [|done..].
    destruct (tee_read_inv outer (length (unread t)) t Hb Hinv) as [_ Hsize'].
    rewrite Nat.min_id, Hsize in Hsize'.
    unfold Hash in Hhash. unfold Size in *.
    destruct Hinv as [<- Hs]. destruct t as [u [sz hs]]. simpl in *. subst sz.
    rewrite take_ge in Hhash by done.
    assert (Hu : total_final_size (entries_query db blobID) = Z.of_nat (length hs))
      by lia.
    split_and!; [done|done| |rewrite length_app; lia].
    exists b. split; [done|]. cbv zeta.
    rewrite Hu, Nat2Z.id, drop_app_length, length_app.
    split_and!; [lia|lia|done|lia|lia|done]. }
  split; [split|].
  - intros (l & n & Hrun). destruct (Hinv l n Hrun) as (? & ? & ? & _). done.
  - intros (Hlen & Hwf & b & Hhead & Hused & Hpad & Hsize & _ & Hhash).
    destruct (paranoia_loop_complete outer (entries_query db blobID)
                (fresh_tee outer) Hb Hfresh Hwf)
      as (l1 & t & Hloop & Hinv' & Hsize' & Hunread).
    simpl in Hsize', Hunread.
    destruct (tee_read_inv outer (length (unread t)) t Hb Hinv') as [Hinv'' Hsize''].
    rewrite Nat.min_id in Hsize''.
    apply head_Some in Hhead as [bs Hbs].
    assert (Hlenu : Z.of_nat (length (unread t)) =
                    Z.of_nat (length outer) - total_final_size (entries_query db blobID)).
    { rewrite Hunread, length_drop. lia. }
    eexists _, _.
    apply (BlobReaderParanoia_after_loop db outer blobID st b bs l1 t); try done.
    + by rewrite Hunread, Hsize', Z.add_0_l.
    + rewrite Hsize'', Hsize'. lia.
    + unfold Hash. destruct Hinv'' as [Hout _].
      simpl in Hout. rewrite drop_all, app_nil_r in Hout. simpl.
      by rewrite Hout.
  - intros l n Hrun. by destruct (Hinv l n Hrun) as (_ & _ & _ & ->).
Qed.
End ParanoiaComplete.


(** ** Ignore files *)

Section Ignore.
Context `{IgnoreMatcher GitIgnore}.

Lemma string_drop_app (a b : string) : string_drop (String.length a) (a +:+ b) = b.
Proof.
  induction a as [|c a IH]; [by destruct b|].
  change (String c a +:+ b) with (String c (a +:+ b)). done.
Qed.

Lemma string_length_app (a b : string) :
  String.length (a +:+ b) = (String.length a + String.length b)%nat.
Proof.
  induction a as [|c a IH]; [done|].
  change (String c a +:+ b) with (String c (a +:+ b)). simpl. by rewrite IH.
Qed.

Lemma string_app_assoc (a b c : string) : a +:+ b +:+ c = (a +:+ b) +:+ c.
Proof.
  induction a as [|x a IH]; [done|].
  change (String x a +:+ b +:+ c) with (String x (a +:+ b +:+ c)).
  change (String x a +:+ b) with (String x (a +:+ b)).
  change (String x (a +:+ b) +:+ c) with (String x ((a +:+ b) +:+ c)).
  by rewrite IH.
Qed.

Lemma isIgnored_step_Ok path g ignored :
  (String.length (basePath g) < String.length path)%nat →
  isIgnored_step path g ignored =
    mret (if decide (matches_path path g) then verdict path g else ignored).
Proof.
  intros Hlen. unfold isIgnored_step, slice_from.
  rewrite decide_True by lia. rewrite bind_ret.
  destruct (decide (matches_path path g)) as [Hm|Hm];
    unfold matches_path, verdict in *;
    destruct (MatchesPathHow _ _) as [[|] pattern]; simpl in *; congruence.
Qed.

Lemma isIgnored_loop path gitIgnores : ∀ ignored,
  Forall (λ g, (String.length (basePath g) < String.length path)%nat) gitIgnores →
  foldM (isIgnored_step path) gitIgnores ignored =
    mret (match last (filter (matches_path path) gitIgnores) with
          | Some g => verdict path g
          | None => ignored
          end).
Proof.
  induction gitIgnores as [|g gs IH]; intros ignored Hall; [done|].
  apply Forall_cons in Hall as [Hg Hall].
  rewrite foldM_cons, isIgnored_step_Ok, bind_ret, IH, filter_cons by done.
  destruct (decide (matches_path path g)) as [Hm|Hm]; [|done].
  rewrite last_cons. by destruct (last (filter _ gs)).
Qed.

(** X7: when every ignore file lies above the path, [isIgnored] returns the
    verdict of the last ignore file in the list that has a pattern for the
    path: ignored unless that pattern is a negation; with no such file the
    path is not ignored.  A directory is matched with a slash at its end,
    and the part of the path handed to an ignore file is what follows the
    directory of the file and the separator. *)
Theorem isIgnored_last_match_wins
    (absPath : string) (isDir : bool) (gitIgnores : list (ignoreWrapper GitIgnore)) :
  let path := if isDir then absPath +:+ "/" else absPath in
  Forall (λ g, (String.length (basePath g) < String.length path)%nat) gitIgnores →
  isIgnored absPath isDir gitIgnores =
    mret (match last (filter (matches_path path) gitIgnores) with
          | Some g => verdict path g
          | None => false
          end) ∧
  ∀ (g : ignoreWrapper GitIgnore) rel, path = basePath g +:+ "/" +:+ rel →
    string_drop (String.length (basePath g) + 1) path = rel.
Proof.
  intros path Hall. split.
  - unfold isIgnored. fold path. by apply isIgnored_loop.
  - intros g rel ->. rewrite string_app_assoc, <- (string_length_app _ "/").
    apply string_drop_app.
Qed.

Lemma isIgnored_loop_short path before g after : ∀ ignored : bool,
  Forall (λ g, (String.length (basePath g) < String.length path)%nat) before →
  (String.length path ≤ String.length (basePath g))%nat →
  foldM (isIgnored_step path) (before ++ g :: after) ignored =
    panic (PanicMsg "slice bounds out of range").
Proof.
  induction before as [|g0 gs IH]; intros ignored Hbefore Hshort.
  - simpl app. rewrite foldM_cons. unfold isIgnored_step, slice_from.
    by rewrite decide_False by lia.
  - apply Forall_cons in Hbefore as [Hg0 Hbefore].
    simpl app. rewrite foldM_cons, isIgnored_step_Ok, bind_ret by done.
    by apply IH.
Qed.

(** X8: an ignore file whose directory is not shorter than the path makes
    [isIgnored] panic on the slice of the path, whatever the files after it
    say. *)
Theorem isIgnored_short_path
    (absPath : string) (isDir : bool) (before : list (ignoreWrapper GitIgnore))
    (g : ignoreWrapper GitIgnore) (after : list (ignoreWrapper GitIgnore)) :
  let path := if isDir then absPath +:+ "/" else absPath in
  Forall (λ g, (String.length (basePath g) < String.length path)%nat) before →
  (String.length path ≤ String.length (basePath g))%nat →
  isIgnored absPath isDir (before ++ g :: after) =
    panic (PanicMsg "slice bounds out of range").
Proof.
  intros path Hbefore Hshort. unfold isIgnored. fold path.
  by apply isIgnored_loop_short.
Qed.
End Ignore.

(** ** Ids in hexadecimal *)

Section Hex.

Lemma byte_round_trips_all table v :
  table = hextable ∨ table = hextable_upper →
  0 <= v < 256 → byte_round_trips table v.
Proof.
  intros Htable Hv.
  assert (Hall : Forall (λ v, byte_round_trips hextable v ∧
                              byte_round_trips hextable_upper v) (seqZ 0 256)).
  { apply (bool_decide_unpack
             (Forall (λ v, byte_round_trips hextable v ∧
                           byte_round_trips hextable_upper v) (seqZ 0 256))).
    by vm_compute. }
  rewrite Forall_forall in Hall. destruct (Hall v) as [Hl Hu].
  { apply elem_of_seqZ. lia. }
  by destruct Htable as [-> | ->].
Qed.

Lemma encode_hex_length table src :
  String.length (encode_hex table src) = (2 * length src)%nat.
Proof. induction src as [|v src IH]; simpl; [done|]. rewrite IH. lia. Qed.

Lemma DecodeString_bytes table src :
  table = hextable ∨ table = hextable_upper →
  Forall (λ v, 0 <= v < 256) src →
  DecodeString (encode_hex table src) = Some src.
Proof.
  intros Htable Hsrc.
  induction Hsrc as [|v src Hv Hsrc IH]; simpl; [done|].
  destruct (byte_round_trips_all table v Htable Hv) as (-> & -> & Hlor & _).
  simpl. rewrite IH. simpl. by rewrite Hlor.
Qed.

(** X9: for bytes (values below 256), decoding the hexadecimal rendering
    gives the bytes back, whether it is the lower-case rendering of
    [hex.EncodeToString], with which the ids are logged, or the upper-case
    one of SQLite's [hex()]; the rendering has two characters per byte. *)
Theorem DecodeString_encode_hex table src :
  table = hextable ∨ table = hextable_upper →
  Forall (λ v, 0 <= v < 256) src →
  DecodeString (encode_hex table src) = Some src ∧
  String.length (encode_hex table src) = (2 * length src)%nat.
Proof.
  intros Htable Hsrc. split; [by apply DecodeString_bytes|apply encode_hex_length].
Qed.

Lemma Split_lf_line (line rest : string) :
  Forall (λ c, c ≠ "010"%char) (String.list_ascii_of_string line) →
  Split_lf (line +:+ String "010" rest) = line :: Split_lf rest.
Proof.
  induction line as [|c line IH]; intros Hline.
  - change ("" +:+ String "010" rest) with (String "010" rest). done.
  - change (String c line +:+ String "010" rest)
      with (String c (line +:+ String "010" rest)).
    simpl in Hline. apply Forall_cons in Hline as [Hc Hline].
    simpl. rewrite decide_False by done. by rewrite IH.
Qed.

Lemma encode_hex_no_lf table src :
  table = hextable ∨ table = hextable_upper →
  Forall (λ v, 0 <= v < 256) src →
  Forall (λ c, c ≠ "010"%char) (String.list_ascii_of_string (encode_hex table src)).
Proof.
  intros Htable Hsrc. induction Hsrc as [|v src Hv Hsrc IH]; simpl; [done|].
  destruct (byte_round_trips_all table v Htable Hv) as (_ & _ & _ & Hhi & Hlo).
  by repeat constructor.
Qed.

Lemma Split_lf_id_lines table ids :
  table = hextable ∨ table = hextable_upper →
  Forall (Forall (λ v, 0 <= v < 256)) ids →
  Split_lf (id_lines table ids) = (encode_hex table <$> ids) ++ [""].
Proof.
  intros Htable Hids. induction Hids as [|id ids Hid Hids IH]; [done|].
  simpl. rewrite Split_lf_line, IH; [done|]. by apply encode_hex_no_lf.
Qed.
End Hex.

Lemma foldM_app {A S} (body : A → S → M S) l1 l2 s :
  foldM body (l1 ++ l2) s = foldM body l1 s ≫= foldM body l2.
Proof.
  revert s. induction l1 as [|a l1 IH]; intros s; simpl app.
  - simpl foldM. by rewrite bind_ret.
  - rewrite !foldM_cons, bind_assoc. apply bind_ext. intros s'. apply IH.
Qed.

Lemma bind_ret_r {A} (m : M A) : m ≫= mret = m.
Proof. destruct m as [l [a|e]]; simpl; [|done]. by rewrite app_nil_r. Qed.

Section Pipeline.
Context `{Registry, Cipher, Compression, Digest}.

(** X10: when standard input lists 32-byte ids in hexadecimal (lower or
    upper case), one to a line, [BlobParanoia] downloads and verifies these
    blobs one after the other in the order given, each after the log line of
    its input line, and stops at the first one that panics. *)
Theorem BlobParanoia_id_lines db table ids label storage :
  table = hextable ∨ table = hextable_upper →
  Forall (λ id, length id = 32%nat ∧ Forall (λ v, 0 <= v < 256) id) ids →
  StorageSelect label = Some storage →
  BlobParanoia db (id_lines table ids) label =
    (_ ← foldM (λ blobID sz,
                  _ ← emit (EvLine (encode_hex table blobID));
                  reader ← DownloadEntireBlob db blobID storage;
                  n ← BlobReaderParanoia db reader blobID storage;
                  mret (add64 sz n)) ids 0;
     mret tt).
Proof.
  intros Htable Hids Hsel. unfold BlobParanoia. rewrite Hsel. cbv zeta.
  rewrite Split_lf_id_lines; [|done|].
  2:{ eapply Forall_impl; [exact Hids|]. by intros id [_ ?]. }
  f_equal. rewrite foldM_app.
  assert (Hblank : ∀ sz, foldM (BlobParanoia_line db storage) [""] sz = mret sz).
  { intros sz. by rewrite foldM_cons, BlobParanoia_line_blank, bind_ret. }
  rewrite (bind_ext _ _ mret Hblank), bind_ret_r.
  generalize 0. induction Hids as [|id ids [Hlen Hid] Hids IH]; intros sz; [done|].
  rewrite fmap_cons, !foldM_cons.
  pose proof (DecodeString_bytes table id Htable Hid) as Hdec.
  pose proof (encode_hex_length table id) as Hlen64.
  rewrite BlobParanoia_line_decode by (rewrite Hlen64; lia).
  rewrite Hdec. apply bind_ext. intros sz'. apply IH.
Qed.
End Pipeline.


(** ** Thousands separators *)

Section Commas.

Lemma mjoin_snoc {A} (gs : list (list A)) (g : list A) :
  mjoin (gs ++ [g]) = mjoin gs ++ g.
Proof.
  induction gs as [|g0 gs IH]; simpl; [by rewrite app_nil_r|].
  by rewrite IH, app_assoc.
Qed.

Lemma flush_run_short run : (length run ≤ 3)%nat → flush_run run = run.
Proof. intros Hlen. unfold flush_run. by rewrite decide_False by lia. Qed.

Lemma foldr_replace_digits ds : ∀ st,
  Forall (λ c, is_digit c = true) ds →
  foldr replace_step st ds = (ds ++ st.1, st.2).
Proof.
  induction ds as [|c ds IH]; intros st Hds; simpl.
  - by destruct st.
  - apply Forall_cons in Hds as [Hc Hds].
    rewrite IH by done. unfold replace_step. by rewrite Hc.
Qed.

Lemma foldr_replace_groups groups :
  Forall digit_group groups →
  foldr replace_step ([], []) (mjoin ((λ g, ","%char :: g) <$> groups)) =
    ([], mjoin ((λ g, ","%char :: g) <$> groups)).
Proof.
  induction 1 as [|g groups [Hlen Hg] Hgroups IH]; [done|].
  rewrite fmap_cons. simpl mjoin. simpl foldr at 1.
  rewrite foldr_app, IH, foldr_replace_digits by done.
  unfold replace_step. simpl. rewrite app_nil_r.
  by rewrite flush_run_short by lia.
Qed.

Lemma ReplaceAllString_number sign ds groups :
  sign = [] ∨ sign = ["-"%char] →
  Forall (λ c, is_digit c = true) ds → Forall digit_group groups →
  ReplaceAllString (sign ++ with_commas ds groups) =
    sign ++ flush_run ds ++ mjoin ((λ g, ","%char :: g) <$> groups).
Proof.
  intros Hsign Hds Hgroups. unfold ReplaceAllString, with_commas.
  rewrite !foldr_app, (foldr_replace_groups groups Hgroups).
  rewrite (foldr_replace_digits ds _ Hds). simpl. rewrite app_nil_r.
  by destruct Hsign as [-> | ->].
Qed.

Lemma FormatCommas_loop_number sign : ∀ k ds groups rounds n,
  sign = [] ∨ sign = ["-"%char] →
  (length ds ≤ k)%nat → (1 ≤ length ds)%nat → (length ds ≤ rounds)%nat →
  Forall (λ c, is_digit c = true) ds → Forall digit_group groups →
  n ≠ sign ++ with_commas ds groups →
  ∃ first gs,
    FormatCommas_loop rounds n (sign ++ with_commas ds groups) =
      Some (sign ++ with_commas first (gs ++ groups)) ∧
    ds = first ++ mjoin gs ∧ (1 ≤ length first ≤ 3)%nat ∧
    Forall (λ c, is_digit c = true) first ∧ Forall digit_group gs ∧
    ReplaceAllString (sign ++ with_commas first (gs ++ groups)) =
      sign ++ with_commas first (gs ++ groups).
Proof.
  intros k. induction k as [|k IH];
    intros ds groups rounds n Hsign Hk Hpos Hrounds Hds Hgroups Hn; [lia|].
  destruct rounds as [|rounds]; [lia|].
  simpl. rewrite decide_False by done.
  rewrite ReplaceAllString_number by done.
  destruct (decide (4 ≤ length ds)%nat) as [Hlong|Hshort].
  - unfold flush_run. rewrite decide_True by done.
    set (ds' := take (length ds - 3) ds). set (g := drop (length ds - 3) ds).
    assert (Hsplit : ds = ds' ++ g) by (unfold ds', g; by rewrite take_drop).
    assert (Hg : digit_group g).
    { split; [unfold g; rewrite length_drop; lia|].
      unfold g. by apply Forall_drop. }
    assert (Hds' : Forall (λ c, is_digit c = true) ds') by (by apply Forall_take).
    assert (Hlen' : length ds' = (length ds - 3)%nat).
    { unfold ds'. rewrite length_take. lia. }
    replace (sign ++ (ds' ++ ","%char :: g) ++ mjoin ((λ g, ","%char :: g) <$> groups))
      with (sign ++ with_commas ds' (g :: groups)).
    2:{ unfold with_commas. rewrite fmap_cons. simpl. by rewrite <- app_assoc. }
    destruct (IH ds' (g :: groups) rounds (sign ++ with_commas ds groups))
      as (first & gs & Hloop & Hfirst & Hflen & Hfd & Hgs & Hfix);
      [done|lia|lia|lia|done|by constructor| |].
    { intros Heq%(f_equal length). unfold with_commas in Heq.
      rewrite !length_app, fmap_cons in Heq. simpl in Heq.
      rewrite length_app in Heq. destruct Hg as [Hg3 _]. lia. }
    exists first, (gs ++ [g]). rewrite <- !app_assoc. simpl.
    split_and!; try done; try lia.
    + by rewrite Hsplit, Hfirst, <- app_assoc, mjoin_snoc.
    + apply Forall_app. split; [done|]. by constructor.
  - rewrite flush_run_short by lia.
    fold (with_commas ds groups).
    destruct rounds; simpl; rewrite decide_True by done.
    all: exists ds, []; simpl; rewrite app_nil_r.
    all: split_and!; try done; try lia.
    all: rewrite ReplaceAllString_number by done.
    all: by rewrite flush_run_short by lia.
Qed.

Lemma string_of_uint_digits d :
  Forall (λ c, is_digit c = true)
    (String.list_ascii_of_string (NilEmpty.string_of_uint d)).
Proof. induction d; simpl; by constructor. Qed.

Lemma string_of_uint_nonempty d :
  d ≠ Decimal.Nil →
  (1 ≤ length (String.list_ascii_of_string (NilEmpty.string_of_uint d)))%nat.
Proof. destruct d; simpl; first done; lia. Qed.

Lemma FormatInt_digits num :
  ∃ ds,
    String.list_ascii_of_string (FormatInt num) =
      (if decide (num < 0) then ["-"%char] else []) ++ ds ∧
    (1 ≤ length ds)%nat ∧ Forall (λ c, is_digit c = true) ds.
Proof.
  unfold FormatInt. destruct num as [|p|p]; simpl.
  - exists ["0"%char]. split_and!; [done|simpl; lia|by repeat constructor].
  - pose proof (DecimalPos.Unsigned.to_uint_nonnil p) as Hnil.
    exists (String.list_ascii_of_string (NilEmpty.string_of_uint (Pos.to_uint p))).
    split_and!.
    + unfold NilZero.string_of_uint. by destruct (Pos.to_uint p).
    + by apply string_of_uint_nonempty.
    + apply string_of_uint_digits.
  - pose proof (DecimalPos.Unsigned.to_uint_nonnil p) as Hnil.
    exists (String.list_ascii_of_string (NilEmpty.string_of_uint (Pos.to_uint p))).
    split_and!.
    + unfold NilZero.string_of_uint. by destruct (Pos.to_uint p).
    + by apply string_of_uint_nonempty.
    + apply string_of_uint_digits.
Qed.

Lemma strip_commas_digits ds :
  Forall (λ c, is_digit c = true) ds → strip_commas ds = ds.
Proof.
  unfold strip_commas. induction 1 as [|c ds Hc Hds IH]; [done|].
  rewrite filter_cons, decide_True, IH; [done|].
  intros ->. by vm_compute in Hc.
Qed.

Lemma strip_commas_groups groups :
  Forall digit_group groups →
  strip_commas (mjoin ((λ g, ","%char :: g) <$> groups)) = mjoin groups.
Proof.
  unfold strip_commas. induction 1 as [|g groups [_ Hg] Hgroups IH]; [done|].
  rewrite fmap_cons. simpl mjoin.
  rewrite filter_cons, decide_False by (by intros ?).
  rewrite filter_app, IH. f_equal. by apply strip_commas_digits.
Qed.

Lemma with_commas_nil ds : with_commas ds [] = ds.
Proof. unfold with_commas. simpl. by rewrite app_nil_r. Qed.

Lemma FormatCommas_number (num : Z) :
  ∃ sign first groups,
    sign = (if decide (num < 0) then ["-"%char] else []) ∧
    FormatCommas num =
      Some (String.string_of_list_ascii (sign ++ with_commas first groups)) ∧
    String.list_ascii_of_string (FormatInt num) = sign ++ first ++ mjoin groups ∧
    (1 ≤ length first ≤ 3)%nat ∧
    Forall (λ c, is_digit c = true) first ∧ Forall digit_group groups ∧
    ReplaceAllString (sign ++ with_commas first groups) =
      sign ++ with_commas first groups.
Proof.
  destruct (FormatInt_digits num) as (ds & Hstr & Hpos & Hds).
  remember (if decide (num < 0) then ["-"%char] else []) as sign eqn:Esign.
  assert (Hsign : sign = [] ∨ sign = ["-"%char]).
  { rewrite Esign. destruct (decide (num < 0)); auto. }
  destruct (FormatCommas_loop_number sign (length ds) ds []
              (length (sign ++ ds)) [])
    as (first & gs & Hloop & Hsplit & Hlen & Hfirst & Hgs & Hfix);
    [done|lia|done|rewrite length_app; lia|done|constructor| |].
  { rewrite with_commas_nil.
    intros Heq%(f_equal length). rewrite length_app in Heq. simpl in Heq. lia. }
  rewrite with_commas_nil, app_nil_r in Hloop. rewrite app_nil_r in Hfix.
  exists sign, first, gs. split_and!; try done; try lia.
  - unfold FormatCommas. cbv zeta. rewrite Hstr, Hloop. done.
  - by rewrite Hstr, Hsplit.
Qed.

(** X11.  [FormatCommas] returns, for every number: the sign of the decimal
    numeral, then one to three digits, then groups of exactly three digits,
    each behind a comma; the digits are those of [strconv.FormatInt], in
    their order, and the loop ends within as many rounds as the numeral has
    characters. *)
Theorem FormatCommas_groups (num : Z) :
  ∃ first groups,
    let sign := if decide (num < 0) then ["-"%char] else [] in
    FormatCommas num =
      Some (String.string_of_list_ascii (sign ++ with_commas first groups)) ∧
    String.list_ascii_of_string (FormatInt num) = sign ++ first ++ mjoin groups ∧
    (1 ≤ length first ≤ 3)%nat ∧
    Forall (λ c, is_digit c = true) first ∧ Forall digit_group groups.
Proof.
  destruct (FormatCommas_number num)
    as (sign & first & gs & -> & Hret & Hstr & Hlen & Hfirst & Hgs & _).
  exists first, gs. cbv zeta. split_and!; try done; lia.
Qed.

(** X12.  Taking the commas out of what [FormatCommas] returns gives back the
    numeral of [strconv.FormatInt]: the function adds separators and changes
    nothing else. *)
Theorem FormatCommas_strip (num : Z) :
  ∃ s, FormatCommas num = Some s ∧
       strip_commas (String.list_ascii_of_string s) =
         String.list_ascii_of_string (FormatInt num).
Proof.
  destruct (FormatCommas_number num)
    as (sign & first & gs & Esign & Hret & Hstr & Hlen & Hfirst & Hgs & _).
  eexists. split; [exact Hret|].
  rewrite String.list_ascii_of_string_of_list_ascii, Hstr.
  unfold strip_commas, with_commas. rewrite !filter_app.
  fold (strip_commas first).
  fold (strip_commas (mjoin ((λ g, ","%char :: g) <$> gs))).
  rewrite (strip_commas_digits first Hfirst), (strip_commas_groups gs Hgs).
  f_equal. rewrite Esign. by destruct (decide (num < 0)).
Qed.

End Commas.


(** ** Further examples *)

Section MoreExamples.
Local Existing Instances example_registry example_cipher example_compression
  example_digest example_matcher.

(** In the example listing [.gitignore] is the entry of index 1. *)
Lemma findGitignore_example :
  (findGitignore example_listing = -1 ↔
     ¬ ∃ e, e ∈ example_listing ∧ Name e = ".gitignore") ∧
  (∃ e, example_listing !! 1%nat = Some e ∧ Name e = ".gitignore").
Proof.
  destruct (findGitignore_sorted example_listing) as [Hnone Hidx].
  - repeat constructor; by vm_compute.
  - split; [exact Hnone|]. apply (Hidx 1%nat). reflexivity.
Defined.

(** The entry of another hash and the empty table [hashes] do not change
    the retrieval of "hello". *)
Lemma cat_ignores_other_hashes_example :
  CatReadCloser hello example_db_more = CatReadCloser hello example_db.
Proof.
  apply (cat_ignores_other_hashes example_db example_db_more hello);
    reflexivity.
Defined.

(** The example blob is accepted, so its entries are well formed. *)
Lemma BlobReaderParanoia_example_well_formed :
  length example_blob_id = 32%nat ∧
  entries_well_formed (entries_query example_db example_blob_id) 0 example_blob ∧
  blob_verified example_db example_blob example_blob_id.
Proof.
  destruct (BlobReaderParanoia_accepts_iff example_db example_blob example_blob_id
              storage_aa) as [Hiff _].
  - by vm_compute.
  - apply example_store_int64.
  - apply (proj1 Hiff). eexists _, _. vm_compute. reflexivity.
Defined.

(** The negation in the ignore file of the inner directory wins over the
    pattern of the outer one. *)
Lemma isIgnored_example :
  isIgnored "/r/a/b.txt" false example_ignores = mret false.
Proof.
  destruct (isIgnored_last_match_wins "/r/a/b.txt" false example_ignores)
    as [Hrun _].
  - repeat constructor; simpl; lia.
  - exact Hrun.
Defined.

(** A path that is the directory of the first ignore file itself. *)
Lemma isIgnored_short_path_example :
  isIgnored "/r" false example_ignores =
    panic (PanicMsg "slice bounds out of range").
Proof.
  apply (isIgnored_short_path "/r" false []
           {| basePath := "/r"; ignore_file := [("a/b.txt", false); ("c", false)] |}
           [ {| basePath := "/r/a"; ignore_file := [("b.txt", true)] |} ]).
  - constructor.
  - simpl. lia.
Defined.

Lemma DecodeString_encode_hex_example :
  DecodeString (encode_hex hextable_upper [0; 255; 16; 171]) = Some [0; 255; 16; 171] ∧
  String.length (encode_hex hextable_upper [0; 255; 16; 171]) = (2 * 4)%nat.
Proof.
  apply (DecodeString_encode_hex hextable_upper [0; 255; 16; 171]).
  - by right.
  - repeat constructor; lia.
Defined.

(** The id of the example blob on standard input, for the storage "aa". *)
Lemma BlobParanoia_id_lines_example :
  BlobParanoia example_db (id_lines hextable [example_blob_id]) "aa" =
    (_ ← foldM (λ blobID sz,
                  _ ← emit (EvLine (encode_hex hextable blobID));
                  reader ← DownloadEntireBlob example_db blobID storage_aa;
                  n ← BlobReaderParanoia example_db reader blobID storage_aa;
                  mret (add64 sz n)) [example_blob_id] 0;
     mret tt).
Proof.
  apply (BlobParanoia_id_lines example_db hextable [example_blob_id] "aa" storage_aa).
  - by left.
  - repeat constructor; by vm_compute.
  - reflexivity.
Defined.
End MoreExamples.
